(** * DocumentsStore: the client-side document cache of [app/stores/DocumentsStore.js]

    A shallow embedding of the store (entity table, derived views, named-page
    fetches, search-result cache) and the properties its specification states.

    Modelling conventions.
    - A [Document] instance is a mutable JS object.  Instances live in a heap
      ([objects]); a reference ([ref]) is an index into it.  The entity table
      [data] is a JS [Map] from id to instance: an association list in
      insertion order, which is the order [Map.prototype.values] iterates in.
    - Every [async] method of the store suspends exactly once, at its transport
      request.  It is split there: [f_start] runs the synchronous prefix and
      issues the request, [f_resume] runs the rest once the transport has
      answered.  [f] is the call run to completion with no other task in
      between.
    - The transport client is external.  Its answer is an input ([response]);
      the requests it was asked to send are recorded in [requests]. *)

From Stdlib Require Import ZArith Lia.
From stdpp Require Import base option list strings gmap sorting.

Open Scope Z_scope.

(** ** Entities and payloads *)

(** Timestamps are compared, never computed on.  A timestamp that is present
    is a non-empty date on the wire, hence truthy. *)
Definition timestamp := Z.

Record Document := {
  id : string;
  urlId : string;
  title : string;
  collectionId : string;
  pinned : bool;
  starred : bool;
  updatedAt : timestamp;
  publishedAt : option timestamp;
}.

(** A reference to a [Document] instance. *)
Definition ref := nat.

(** [SearchResult]: the API sends it with the raw document inline
    ([SearchResult Document]); the cache keeps it with a reference to the
    instance of the entity table ([SearchResult ref]). *)
Record SearchResult (D : Type) := {
  ranking : Z;
  context : string;
  document : D;
}.
Arguments ranking {D} _.
Arguments context {D} _.
Arguments document {D} _.

Record PaginationParams := {
  limit : option Z;
  offset : option Z;
  sort : option string;
  direction : option string;
}.

Record FetchOptions := {
  prefetch : option bool;
  shareId : option string;
}.

(** The default value [{}] of an options parameter. *)
Definition no_pagination : PaginationParams :=
  {| limit := None; offset := None; sort := None; direction := None |}.
Definition no_options : FetchOptions := {| prefetch := None; shareId := None |}.

(** ** JavaScript primitives used by the store *)

(** Truthiness of an optional field: [!!x]. *)
Definition present {A} (x : option A) : bool :=
  match x with Some _ => true | None => false end.

(** Truthiness of an optional boolean. *)
Definition truthy (x : option bool) : bool :=
  match x with Some b => b | None => false end.

(** [x || 0] on an optional number: [0] and [undefined] are falsy. *)
Definition or_zero (x : option Z) : Z :=
  match x with
  | Some n => if n =? 0 then 0 else n
  | None => 0
  end.

(** [String.prototype.endsWith]: the last [length t] characters of [s] are [t]. *)
Definition endsWith (s t : string) : bool :=
  let n := String.length s in
  let m := String.length t in
  if (m <=? n)%nat then String.eqb (String.substring (n - m) m s) t else false.

(** [Array.prototype.splice(start, deleteCount, ...items)], in place: a negative
    [start] counts from the end, [start] is clamped to the length and
    [deleteCount] to what is left after [start]. *)
Definition splice {A} (array : list A) (start deleteCount : Z) (items : list A) : list A :=
  let len := Z.of_nat (length array) in
  let actualStart := if start <? 0 then Z.max (len + start) 0 else Z.min start len in
  let actualDeleteCount := Z.min (Z.max deleteCount 0) (len - actualStart) in
  take (Z.to_nat actualStart) array ++ items
    ++ drop (Z.to_nat (actualStart + actualDeleteCount)) array.

(** lodash [uniq] ([baseUniq]): scan left to right, keep a value unless it is
    already in the result. *)
Fixpoint baseUniq (result array : list string) : list string :=
  match array with
  | [] => result
  | value :: rest =>
      if bool_decide (value ∈ result) then baseUniq result rest
      else baseUniq (result ++ [value]) rest
  end.
Definition uniq (array : list string) : list string := baseUniq [] array.

(** lodash [orderBy(collection, key, 'desc')]: a stable sort, larger keys
    first, equal keys in input order. *)
Section OrderBy.
Context {A : Type} (key : A → Z).

Fixpoint insert_desc (x : A) (sorted : list A) : list A :=
  match sorted with
  | [] => [x]
  | y :: rest => if key x <? key y then y :: insert_desc x rest else x :: sorted
  end.

Definition orderBy_desc (collection : list A) : list A :=
  foldr insert_desc [] collection.

(** Larger keys first. *)
Definition descending : list A → Prop :=
  StronglySorted (λ a b, key b ≤ key a).
End OrderBy.

(** ** Transport *)

Inductive request :=
| POST (path : string) (body : option PaginationParams)
| GET_search (options : PaginationParams) (query : string)
| POST_info (id : string) (shareId : option string).

(** The object a request resolves to; its [data] field may be missing. *)
Record Res (A : Type) := { res_data : option A }.
Arguments res_data {A} _.

Inductive response (A : Type) :=
| Rejected (reason : string)
| Resolved (res : option (Res A)).
Arguments Rejected {A} _.
Arguments Resolved {A} _.

Inductive Error :=
| InvariantViolation (message : string)
| TransportFailure (reason : string).

Inductive outcome (R : Type) :=
| Returned (r : R)
| Raised (e : Error).
Arguments Returned {R} _.
Arguments Raised {R} _.

(** [invariant(res && res.data, message); const { data } = res] *)
Definition invariant {A} (res : option (Res A)) (message : string) : Error + A :=
  match res with
  | Some {| res_data := Some data |} => inr data
  | _ => inl (InvariantViolation message)
  end.

(** ** The store *)

Record Store := {
  objects : list Document;
  data : list (string * ref);
  isFetching : bool;
  isLoaded : bool;
  recentlyViewedIds : list string;
  searchCache : gmap string (list (SearchResult ref));
  requests : list request;
}.

Definition empty_store : Store :=
  {| objects := []; data := []; isFetching := false; isLoaded := false;
     recentlyViewedIds := []; searchCache := ∅; requests := [] |}.

Definition set_isFetching (b : bool) (st : Store) : Store :=
  {| objects := objects st; data := data st; isFetching := b;
     isLoaded := isLoaded st; recentlyViewedIds := recentlyViewedIds st;
     searchCache := searchCache st; requests := requests st |}.

Definition set_isLoaded (b : bool) (st : Store) : Store :=
  {| objects := objects st; data := data st; isFetching := isFetching st;
     isLoaded := b; recentlyViewedIds := recentlyViewedIds st;
     searchCache := searchCache st; requests := requests st |}.

Definition set_recentlyViewedIds (ids : list string) (st : Store) : Store :=
  {| objects := objects st; data := data st; isFetching := isFetching st;
     isLoaded := isLoaded st; recentlyViewedIds := ids;
     searchCache := searchCache st; requests := requests st |}.

Definition set_searchCache (c : gmap string (list (SearchResult ref))) (st : Store) : Store :=
  {| objects := objects st; data := data st; isFetching := isFetching st;
     isLoaded := isLoaded st; recentlyViewedIds := recentlyViewedIds st;
     searchCache := c; requests := requests st |}.

(** [client.post] / [client.get]: hand the request to the transport. *)
Definition send (req : request) (st : Store) : Store :=
  {| objects := objects st; data := data st; isFetching := isFetching st;
     isLoaded := isLoaded st; recentlyViewedIds := recentlyViewedIds st;
     searchCache := searchCache st; requests := requests st ++ [req] |}.

(** [this.data.get(id)] *)
Fixpoint Map_get (k : string) (m : list (string * ref)) : option ref :=
  match m with
  | [] => None
  | (k', r) :: rest => if bool_decide (k' = k) then Some r else Map_get k rest
  end.

Definition get (k : string) (st : Store) : option ref := Map_get k (data st).

(** Reading through a reference. *)
Definition deref (st : Store) (r : ref) : option Document := objects st !! r.

(** [Array.from(this.data.values())], as references and as the instances'
    current contents. *)
Definition value_refs (st : Store) : list ref := (data st).*2.
Definition values (st : Store) : list Document := omap (deref st) (value_refs st).

(** Modelled from the spec: [add] of the base store ([stores/BaseStore], not
    part of the sources at hand).  "Exactly one Document instance exists per id
    in the Entity Table at any time; updates mutate that instance in place
    rather than replacing it": a raw entity whose id is in the table overwrites
    the fields of the existing instance, which keeps its identity and its place
    in the table; any other raw entity becomes a new instance, entered last.
    [add] returns the instance. *)
Definition add (item : Document) (st : Store) : Store * ref :=
  match get (id item) st with
  | Some existing =>
      ({| objects := <[existing := item]> (objects st); data := data st;
          isFetching := isFetching st; isLoaded := isLoaded st;
          recentlyViewedIds := recentlyViewedIds st;
          searchCache := searchCache st; requests := requests st |},
       existing)
  | None =>
      let fresh := length (objects st) in
      ({| objects := objects st ++ [item]; data := data st ++ [(id item, fresh)];
          isFetching := isFetching st; isLoaded := isLoaded st;
          recentlyViewedIds := recentlyViewedIds st;
          searchCache := searchCache st; requests := requests st |},
       fresh)
  end.

(** [items.forEach(this.add)] *)
Definition add_all (items : list Document) (st : Store) : Store :=
  foldl (λ s item, (add item s).1) st items.

(** ** Derived views *)

Definition publishedInCollection (collection : string) (st : Store) : list Document :=
  filter (λ document,
            collectionId document = collection ∧ present (publishedAt document) = true)
         (values st).

Definition recentlyUpdatedInCollection (collection : string) (st : Store) : list Document :=
  orderBy_desc updatedAt (publishedInCollection collection st).

Definition drafts (st : Store) : list Document :=
  filter (λ doc, present (publishedAt doc) = false)
         (orderBy_desc updatedAt (values st)).

Definition searchResults (query : string) (st : Store) : list (SearchResult ref) :=
  default [] (searchCache st !! query).

(** [find(Array.from(this.data.values()), doc => url.endsWith(doc.urlId))] *)
Definition getByUrl (url : string) (st : Store) : option ref :=
  List.find (λ r, match deref st r with
                  | Some doc => endsWith url (urlId doc)
                  | None => false
                  end)
            (value_refs st).

(** ** Named-page fetches *)

Definition fetchNamedPage_start (name : option string)
    (options : option PaginationParams) (st : Store) : Store :=
  send (POST ("/documents." +:+ default "list" name) options) (set_isFetching true st).

(** The [try] body after the [await], then the [finally] clause. *)
Definition fetchNamedPage_resume (answer : response (list Document)) (st : Store)
    : Store * outcome (list Document) :=
  let '(st1, out) :=
    match answer with
    | Rejected reason => (st, Raised (TransportFailure reason))
    | Resolved res =>
        match invariant res "Document list not available" with
        | inl err => (st, Raised err)
        | inr items => (set_isLoaded true (add_all items st), Returned items)
        end
    end in
  (set_isFetching false st1, out).

Definition fetchNamedPage (name : option string) (options : option PaginationParams)
    (answer : response (list Document)) (st : Store) : Store * outcome (list Document) :=
  fetchNamedPage_resume answer (fetchNamedPage_start name options st).

Definition fetchRecentlyViewed_start (options : option PaginationParams) (st : Store) : Store :=
  fetchNamedPage_start (Some "viewed") options st.

Definition fetchRecentlyViewed_resume (answer : response (list Document)) (st : Store)
    : Store * outcome (list Document) :=
  match fetchNamedPage_resume answer st with
  | (st1, Returned items) =>
      (set_recentlyViewedIds (uniq (recentlyViewedIds st1 ++ map id items)) st1,
       Returned items)
  | (st1, Raised err) => (st1, Raised err)
  end.

Definition fetchRecentlyViewed (options : option PaginationParams)
    (answer : response (list Document)) (st : Store) : Store * outcome (list Document) :=
  fetchRecentlyViewed_resume answer (fetchRecentlyViewed_start options st).

(** ** Search *)

Definition search_start (query : string) (options : PaginationParams) (st : Store) : Store :=
  send (GET_search options query) st.

(** [compact(data.map(result => ...))]: a result whose document is not in the
    table is dropped. *)
Definition resolve (st : Store) (found : list (SearchResult Document))
    : list (SearchResult ref) :=
  omap (λ result,
          match get (id (document result)) st with
          | None => None
          | Some instance =>
              Some {| ranking := ranking result; context := context result;
                      document := instance |}
          end) found.

Definition search_resume (query : string) (options : PaginationParams)
    (answer : response (list (SearchResult Document))) (st : Store)
    : Store * outcome (list (SearchResult Document)) :=
  match answer with
  | Rejected reason => (st, Raised (TransportFailure reason))
  | Resolved res =>
      match invariant res "Search response should be available" with
      | inl err => (st, Raised err)
      | inr found =>
          let st1 := add_all (map document found) st in
          let results := resolve st1 found in
          let existing := default [] (searchCache st1 !! query) in
          let existing' :=
            splice existing (or_zero (offset options)) (or_zero (limit options)) results in
          (set_searchCache (<[query := existing']> (searchCache st1)) st1, Returned found)
      end
  end.

Definition search (query : string) (options : PaginationParams)
    (answer : response (list (SearchResult Document))) (st : Store)
    : Store * outcome (list (SearchResult Document)) :=
  search_resume query options answer (search_start query options st).

(** ** Single-document fetch *)

(** A call either completes in its synchronous prefix or is left waiting for the
    transport. *)
Inductive progress (R : Type) :=
| Completed (out : outcome R)
| Waiting.
Arguments Completed {R} _.
Arguments Waiting {R}.

Definition fetch_start (ident : string) (options : FetchOptions) (st : Store)
    : Store * progress (option ref) :=
  let st1 := if negb (truthy (prefetch options)) then set_isFetching true st else st in
  match (match get ident st1 with Some doc => Some doc | None => getByUrl ident st1 end) with
  | Some doc => (set_isFetching false st1, Completed (Returned (Some doc)))
  | None => (send (POST_info ident (shareId options)) st1, Waiting)
  end.

Definition fetch_resume (answer : response Document) (st : Store)
    : Store * outcome (option ref) :=
  let '(st1, out) :=
    match answer with
    | Rejected reason => (st, Raised (TransportFailure reason))
    | Resolved res =>
        match invariant res "Document not available" with
        | inl err => (st, Raised err)
        | inr item =>
            let st2 := set_isLoaded true (add item st).1 in
            (st2, Returned (get (id item) st2))
        end
    end in
  (set_isFetching false st1, out).

Definition fetch (ident : string) (options : FetchOptions) (answer : response Document)
    (st : Store) : Store * outcome (option ref) :=
  match fetch_start ident options st with
  | (st1, Completed out) => (st1, out)
  | (st1, Waiting) => fetch_resume answer st1
  end.

(** [prefetchDocument] is not [async]: it returns [undefined] ([None]) or the
    promise of [fetch]. *)
Definition prefetchDocument_start (ident : string) (st : Store)
    : Store * option (progress (option ref)) :=
  if negb (present (get ident st)) then
    let '(st1, p) := fetch_start ident {| prefetch := Some true; shareId := None |} st in
    (st1, Some p)
  else (st, None).

Definition prefetchDocument (ident : string) (answer : response Document) (st : Store)
    : Store * option (outcome (option ref)) :=
  if negb (present (get ident st)) then
    let '(st1, out) := fetch ident {| prefetch := Some true; shareId := None |} answer st in
    (st1, Some out)
  else (st, None).

(** ** Heap discipline *)

(** What JS gives for free: a reference in the table points to an allocated
    instance, and two entries of the table never share an instance. *)
Definition well_formed (st : Store) : Prop :=
  Forall (λ entry, (entry.2 < length (objects st))%nat) (data st)
  ∧ NoDup (data st).*2.

Global Instance well_formed_dec st : Decision (well_formed st).
Proof. unfold well_formed. apply _. Defined.

(** A cached search result stands for a result of the API: same ranking and
    context, and the instance the table holds for the result's document. *)
Definition refers_to (st : Store) (result : SearchResult Document)
    (cached : SearchResult ref) : Prop :=
  ranking cached = ranking result
  ∧ context cached = context result
  ∧ get (id (document result)) st = Some (document cached).

(** The page a [search] call stores for what the API found. *)
Definition page_of (st : Store) (found : list (SearchResult Document))
    : list (SearchResult ref) :=
  resolve (add_all (map document found) st) found.

(** ** Scenario data *)

Definition mkDocument (name collection : string) (updated : timestamp)
    (published : option timestamp) : Document :=
  {| id := name; urlId := "u-" +:+ name; title := name; collectionId := collection;
     pinned := false; starred := false; updatedAt := updated;
     publishedAt := published |}.

(** The table of the specification's scenario: A, B and C in collection "X",
    C a draft. *)
Definition docA : Document := mkDocument "A" "X" 2 (Some 2).
Definition docB : Document := mkDocument "B" "X" 5 (Some 5).
Definition docC : Document := mkDocument "C" "X" 1 None.
Definition scenario_store : Store := add_all [docA; docB; docC] empty_store.

(** Search results on the scenario's documents, and a store that has searched
    "q" once and cached three results. *)
Definition hit (name : string) (rank : Z) : SearchResult Document :=
  {| ranking := rank; context := "... " +:+ name +:+ " ...";
     document := mkDocument name "X" rank (Some rank) |}.

Definition window (from count : Z) : PaginationParams :=
  {| limit := Some count; offset := Some from; sort := None; direction := None |}.

Definition found_page {A} (items : list A) : response (list A) :=
  Resolved (Some {| res_data := Some items |}).

Definition searched_store : Store :=
  (search "q" (window 0 3) (found_page [hit "A" 3; hit "B" 2; hit "C" 1]) empty_store).1.

(** ** More derived views *)

(** lodash [orderBy(collection, key, 'asc')]: a stable sort, smaller keys
    first, equal keys in input order. *)
Section OrderByAsc.
Context {A : Type} (key : A → Z).

Fixpoint insert_asc (x : A) (sorted : list A) : list A :=
  match sorted with
  | [] => [x]
  | y :: rest => if key y <? key x then y :: insert_asc x rest else x :: sorted
  end.

Definition orderBy_asc (collection : list A) : list A :=
  foldr insert_asc [] collection.

(** Smaller keys first. *)
Definition ascending : list A → Prop :=
  StronglySorted (λ a b, key a ≤ key b).
End OrderByAsc.

(** [compact(this.recentlyViewedIds.map(id => this.data.get(id)))], sorted. *)
Definition recentlyViewed (st : Store) : list Document :=
  orderBy_desc updatedAt
    (omap (λ ident, get ident st ≫= deref st) (recentlyViewedIds st)).

Definition recentlyUpdated (st : Store) : list Document :=
  orderBy_desc updatedAt (values st).

Definition pinnedInCollection (collection : string) (st : Store) : list Document :=
  filter (λ document, pinned document = true)
         (recentlyUpdatedInCollection collection st).

Definition leastRecentlyUpdatedInCollection (collection : string) (st : Store)
    : list Document :=
  orderBy_asc updatedAt (publishedInCollection collection st).

(** ** Wrappers of [fetchNamedPage] *)

(** [{ sort: ..., direction: ..., ...options }]: a field the caller gives
    replaces the default written before the spread. *)
Definition with_defaults (sort0 direction0 : string) (options : option PaginationParams)
    : PaginationParams :=
  match options with
  | None =>
      {| limit := None; offset := None; sort := Some sort0; direction := Some direction0 |}
  | Some given =>
      {| limit := limit given; offset := offset given;
         sort := match sort given with Some s => Some s | None => Some sort0 end;
         direction :=
           match direction given with Some d => Some d | None => Some direction0 end |}
  end.

Definition fetchRecentlyUpdated (options : option PaginationParams)
    (answer : response (list Document)) (st : Store) : Store * outcome (list Document) :=
  fetchNamedPage (Some "list") options answer st.

Definition fetchAlphabetical (options : option PaginationParams)
    (answer : response (list Document)) (st : Store) : Store * outcome (list Document) :=
  fetchNamedPage (Some "list") (Some (with_defaults "title" "ASC" options)) answer st.

Definition fetchLeastRecentlyUpdated (options : option PaginationParams)
    (answer : response (list Document)) (st : Store) : Store * outcome (list Document) :=
  fetchNamedPage (Some "list") (Some (with_defaults "updatedAt" "ASC" options)) answer st.

Definition fetchRecentlyPublished (options : option PaginationParams)
    (answer : response (list Document)) (st : Store) : Store * outcome (list Document) :=
  fetchNamedPage (Some "list") (Some (with_defaults "publishedAt" "DESC" options)) answer st.

Definition fetchStarred (options : option PaginationParams)
    (answer : response (list Document)) (st : Store) : Store * outcome (list Document) :=
  fetchNamedPage (Some "starred") options answer st.

Definition fetchDrafts (options : option PaginationParams)
    (answer : response (list Document)) (st : Store) : Store * outcome (list Document) :=
  fetchNamedPage (Some "drafts") options answer st.

Definition fetchPinned (options : option PaginationParams)
    (answer : response (list Document)) (st : Store) : Store * outcome (list Document) :=
  fetchNamedPage (Some "pinned") options answer st.

Definition fetchOwned (options : option PaginationParams)
    (answer : response (list Document)) (st : Store) : Store * outcome (list Document) :=
  fetchNamedPage (Some "list") options answer st.

(** ** The table as a JS [Map] of live instances *)

(** Beyond [well_formed]: keys are unique, and the instance kept under a key
    carries that key as its [id]. *)
Definition consistent (st : Store) : Prop :=
  well_formed st
  ∧ NoDup (data st).*1
  ∧ Forall (λ entry, id <$> deref st entry.2 = Some entry.1) (data st).

Global Instance consistent_dec st : Decision (consistent st).
Proof. unfold consistent. apply _. Defined.

(** Each operation changes the table as adding some list of entities does:
    the page, the documents found, the document fetched, or nothing. *)
Definition table_after (items : list Document) (st st' : Store) : Prop :=
  data st' = data (add_all items st) ∧ objects st' = objects (add_all items st).

(** The answer of [documents.info] that carries a document. *)
Definition found_document (item : Document) : response Document :=
  Resolved (Some {| res_data := Some item |}).

(** ** Operations that reach the collection store *)

(** lodash [without(array, value)] *)
Definition without (array : list string) (value : string) : list string :=
  filter (λ x, x ≠ value) array.

(** The body of a [documents.move] request. *)
Record MoveRequest := {
  move_id : string;
  move_parentDocument : option string;
}.

(** The store together with what it reaches through [rootStore]: the keys of
    the sibling collection store ([rootStore.collections.data]), the
    collections whose [refresh] was called, in call order, and the
    [documents.move] requests handed to the transport. *)
Record Root := {
  documents : Store;
  collections : list string;
  refreshed : list string;
  moves : list MoveRequest;
}.

Definition set_documents (st : Store) (root : Root) : Root :=
  {| documents := st; collections := collections root; refreshed := refreshed root;
     moves := moves root |}.

(** [this.rootStore.collections.data.get(document.collectionId)]; a collection
    is identified by its key. *)
Definition getCollectionForDocument (document : Document) (root : Root) : option string :=
  if bool_decide (collectionId document ∈ collections root)
  then Some (collectionId document) else None.

(** [const collection = this.getCollectionForDocument(document);
     if (collection) collection.refresh();] *)
Definition refresh_collection_of (document : Document) (root : Root) : Root :=
  match getCollectionForDocument document root with
  | Some collection =>
      {| documents := documents root; collections := collections root;
         refreshed := refreshed root ++ [collection]; moves := moves root |}
  | None => root
  end.

(** [move]; [document] stands for the instance the caller passes, with the
    fields it has when they are read. *)
Definition move_start (document : Document) (parentDocumentId : option string)
    (root : Root) : Root :=
  {| documents := documents root; collections := collections root;
     refreshed := refreshed root;
     moves := moves root ++ [{| move_id := id document;
                                move_parentDocument := parentDocumentId |}] |}.

Definition move_resume (document : Document) (answer : response Document) (root : Root)
    : Root * outcome ref :=
  match answer with
  | Rejected reason => (root, Raised (TransportFailure reason))
  | Resolved res =>
      match invariant res "Data not available" with
      | inl err => (root, Raised err)
      | inr item =>
          let root1 := refresh_collection_of document root in
          let '(st, instance) := add item (documents root1) in
          (set_documents st root1, Returned instance)
      end
  end.

Definition move (document : Document) (parentDocumentId : option string)
    (answer : response Document) (root : Root) : Root * outcome ref :=
  move_resume document answer (move_start document parentDocumentId root).

(** [delete]: [super.delete] belongs to the base store; it is a parameter,
    taken as run to completion: the store it leaves and whether it returned
    or raised. *)
Section Delete.
Variable super_delete : Document → Store → Store * outcome ().

Definition delete (document : Document) (root : Root) : Root * outcome () :=
  match super_delete document (documents root) with
  | (st, Raised err) => (set_documents st root, Raised err)
  | (st, Returned _) =>
      let st1 :=
        set_recentlyViewedIds (without (recentlyViewedIds st) (id document)) st in
      (refresh_collection_of document (set_documents st1 root), Returned ())
  end.
End Delete.

(** * Properties *)

(** ** Sorting *)

Section OrderByFacts.
Context {A : Type} (key : A → Z).

Lemma insert_desc_Permutation x l : insert_desc key x l ≡ₚ x :: l.
Proof.
  induction l as [|y l IH]; simpl; [done|].
  destruct (key x <? key y); [|done].
  rewrite IH. apply Permutation_swap.
Qed.

Lemma orderBy_desc_Permutation l : orderBy_desc key l ≡ₚ l.
Proof.
  induction l as [|x l IH]; simpl; [done|].
  by rewrite insert_desc_Permutation, IH.
Qed.

Lemma insert_desc_descending x l : descending key l → descending key (insert_desc key x l).
Proof.
  induction 1 as [|y l Hl IH Hy]; simpl.
  - repeat constructor.
  - destruct (Z.ltb_spec (key x) (key y)) as [Hlt|Hge].
    + constructor; [done|].
      rewrite insert_desc_Permutation. constructor; [lia|done].
    + constructor; [by constructor|].
      constructor; [done|].
      eapply Forall_impl; [exact Hy|]. simpl. intros; lia.
Qed.

Lemma orderBy_desc_descending l : descending key (orderBy_desc key l).
Proof.
  induction l; simpl; [constructor|by apply insert_desc_descending].
Qed.

(** A stable sort commutes with a filter. *)
Lemma filter_insert_desc (P : A → Prop) `{!∀ x, Decision (P x)} x l :
  descending key l →
  filter P (insert_desc key x l) =
    if decide (P x) then insert_desc key x (filter P l) else filter P l.
Proof.
  induction 1 as [|y l Hl IH Hy]; simpl.
  - rewrite filter_cons, filter_nil. by case_decide.
  - destruct (Z.ltb_spec (key x) (key y)) as [Hlt|Hge].
    + rewrite !filter_cons, IH.
      destruct (decide (P y)), (decide (P x)); simpl; try done.
      by destruct (Z.ltb_spec (key x) (key y)); [|lia].
    + rewrite (filter_cons P x), (filter_cons P y).
      destruct (decide (P x)); [|done].
      destruct (decide (P y)); simpl.
      * by destruct (Z.ltb_spec (key x) (key y)); [lia|].
      * destruct (filter P l) as [|z l'] eqn:Hf; [done|]. simpl.
        assert (z ∈ l) as Hz.
        { eapply (list_elem_of_filter P). rewrite Hf. by left. }
        rewrite Forall_forall in Hy. specialize (Hy z Hz). simpl in Hy.
        by destruct (Z.ltb_spec (key x) (key z)); [lia|].
Qed.

Lemma filter_orderBy_desc (P : A → Prop) `{!∀ x, Decision (P x)} l :
  filter P (orderBy_desc key l) = orderBy_desc key (filter P l).
Proof.
  induction l as [|x l IH]; simpl; [done|].
  rewrite filter_insert_desc by apply orderBy_desc_descending.
  rewrite filter_cons, IH. by case_decide.
Qed.
End OrderByFacts.

(** ** The entity table *)

Lemma Map_get_app k m1 m2 :
  Map_get k (m1 ++ m2) =
    match Map_get k m1 with Some r => Some r | None => Map_get k m2 end.
Proof.
  induction m1 as [|[k' r'] m1 IH]; simpl; [done|].
  by case_bool_decide.
Qed.

Lemma Map_get_Some k m r : Map_get k m = Some r → (k, r) ∈ m.
Proof.
  induction m as [|[k' r'] m IH]; simpl; [done|].
  case_bool_decide; intros Heq.
  - simplify_eq. by left.
  - right. by apply IH.
Qed.

Lemma Map_get_elem_of k m r : (k, r) ∈ m → is_Some (Map_get k m).
Proof.
  induction m as [|[k' r'] m IH]; simpl.
  - by intros ?%elem_of_nil.
  - intros Hin. case_bool_decide; [by eexists|].
    apply elem_of_cons in Hin as [?|?]; [simplify_eq|by apply IH].
Qed.

Lemma Map_get_inj k1 k2 m r :
  NoDup m.*2 → Map_get k1 m = Some r → Map_get k2 m = Some r → k1 = k2.
Proof.
  induction m as [|[k' r'] m IH]; simpl; [done|].
  intros [Hnotin Hnd]%NoDup_cons.
  case_bool_decide; case_bool_decide; intros H1 H2; simplify_eq; try done.
  - apply Map_get_Some in H2. exfalso. apply Hnotin.
    apply list_elem_of_fmap. by exists (k2, r).
  - apply Map_get_Some in H1. exfalso. apply Hnotin.
    apply list_elem_of_fmap. by exists (k1, r).
  - by apply IH.
Qed.

Lemma add_frame item st :
  isFetching (add item st).1 = isFetching st
  ∧ isLoaded (add item st).1 = isLoaded st
  ∧ recentlyViewedIds (add item st).1 = recentlyViewedIds st
  ∧ searchCache (add item st).1 = searchCache st
  ∧ requests (add item st).1 = requests st.
Proof. unfold add. by destruct (get (id item) st). Qed.

Lemma add_well_formed item st : well_formed st → well_formed (add item st).1.
Proof.
  intros [Hvalid Hinj]. unfold add.
  destruct (get (id item) st) as [existing|] eqn:Hget; simpl.
  - split; simpl; [|done]. by rewrite length_insert.
  - split; simpl.
    + rewrite length_app. simpl. apply Forall_app. split.
      * eapply Forall_impl; [exact Hvalid|]. simpl. lia.
      * repeat constructor. simpl. lia.
    + rewrite fmap_app. simpl. apply NoDup_app. split; [done|].
      split; [|apply NoDup_singleton].
      intros r [[k r'] [Heq Hin]]%list_elem_of_fmap Hr%list_elem_of_singleton.
      rewrite Forall_forall in Hvalid. specialize (Hvalid _ Hin).
      simpl in *. lia.
Qed.

(** An entity already in the table keeps the table as it is: only the
    instance changes. *)
Lemma add_data_existing item st :
  is_Some (get (id item) st) → data (add item st).1 = data st.
Proof. intros [r Hr]. unfold add. by rewrite Hr. Qed.

Lemma get_add_same item st : get (id item) (add item st).1 = Some (add item st).2.
Proof.
  unfold add. destruct (get (id item) st) as [existing|] eqn:Hget; simpl; [done|].
  unfold get in *. simpl. rewrite Map_get_app, Hget. simpl.
  by rewrite bool_decide_eq_true_2.
Qed.

Lemma get_add_Some k r item st : get k st = Some r → get k (add item st).1 = Some r.
Proof.
  intros Hk. unfold add. destruct (get (id item) st) as [existing|] eqn:Hget; simpl; [done|].
  unfold get in *. simpl. by rewrite Map_get_app, Hk.
Qed.

Lemma deref_add_same item st :
  well_formed st → deref (add item st).1 (add item st).2 = Some item.
Proof.
  intros [Hvalid _]. unfold add, deref.
  destruct (get (id item) st) as [existing|] eqn:Hget; simpl.
  - apply list_lookup_insert_eq.
    apply Map_get_Some in Hget. rewrite Forall_forall in Hvalid.
    by specialize (Hvalid _ Hget).
  - by rewrite lookup_app_r, Nat.sub_diag.
Qed.

Lemma deref_add_other k r item st :
  well_formed st → get k st = Some r → k ≠ id item →
  deref (add item st).1 r = deref st r.
Proof.
  intros [Hvalid Hinj] Hk Hne. unfold add, deref.
  destruct (get (id item) st) as [existing|] eqn:Hget; simpl.
  - apply list_lookup_insert_ne. intros ->.
    apply Hne. by eapply Map_get_inj.
  - apply lookup_app_l.
    apply Map_get_Some in Hk. rewrite Forall_forall in Hvalid.
    by specialize (Hvalid _ Hk).
Qed.

Lemma add_all_cons item items st :
  add_all (item :: items) st = add_all items (add item st).1.
Proof. done. Qed.

Lemma add_all_frame items st :
  isFetching (add_all items st) = isFetching st
  ∧ isLoaded (add_all items st) = isLoaded st
  ∧ recentlyViewedIds (add_all items st) = recentlyViewedIds st
  ∧ searchCache (add_all items st) = searchCache st
  ∧ requests (add_all items st) = requests st.
Proof.
  revert st. induction items as [|item items IH]; intros st; [done|].
  rewrite add_all_cons.
  destruct (IH (add item st).1) as (-> & -> & -> & -> & ->).
  apply add_frame.
Qed.

Lemma add_all_well_formed items st : well_formed st → well_formed (add_all items st).
Proof.
  revert st. induction items as [|item items IH]; intros st Hwf; [done|].
  rewrite add_all_cons. by apply IH, add_well_formed.
Qed.

Lemma get_add_all_Some k r items st :
  get k st = Some r → get k (add_all items st) = Some r.
Proof.
  revert st. induction items as [|item items IH]; intros st Hk; [done|].
  rewrite add_all_cons. by apply IH, get_add_Some.
Qed.

Lemma deref_add_all_other k r items st :
  well_formed st → get k st = Some r → k ∉ map id items →
  deref (add_all items st) r = deref st r.
Proof.
  revert st. induction items as [|item items IH]; intros st Hwf Hk Hnotin; [done|].
  rewrite add_all_cons. simpl in Hnotin.
  apply not_elem_of_cons in Hnotin as [Hne Hnotin].
  rewrite IH; [by eapply deref_add_other|by apply add_well_formed| |done].
  by apply get_add_Some.
Qed.

(** After [items.forEach(this.add)] every id of [items] is a key of the table,
    and its instance holds an entity of [items] with that id (the last one, if
    the page repeats an id). *)
Lemma add_all_added d items st :
  d ∈ items →
  ∃ r, get (id d) (add_all items st) = Some r
       ∧ (well_formed st →
          ∃ d', deref (add_all items st) r = Some d' ∧ id d' = id d ∧ d' ∈ items).
Proof.
  revert d st. induction items as [|item items IH]; intros d st Hin.
  { by apply elem_of_nil in Hin. }
  rewrite add_all_cons.
  destruct (decide (id d ∈ map id items)) as [Hlater|Hlast].
  - apply list_elem_of_fmap in Hlater as (d2 & Hid & Hin2).
    destruct (IH d2 (add item st).1 Hin2) as (r & Hr & Hcontent).
    exists r. rewrite Hid. split; [done|]. intros Hwf.
    destruct (Hcontent (add_well_formed item st Hwf)) as (d' & ? & ? & ?).
    exists d'. split; [done|]. split; [congruence|by right].
  - apply elem_of_cons in Hin as [->|Hin].
    2:{ exfalso. apply Hlast. apply list_elem_of_fmap. by exists d. }
    exists (add item st).2. split.
    + apply get_add_all_Some, get_add_same.
    + intros Hwf. exists item. split; [|split; [done|by left]].
      rewrite (deref_add_all_other (id item));
        [by apply deref_add_same|by apply add_well_formed|apply get_add_same|done].
Qed.

(** Entities that are all in the table already leave the table as it is. *)
Lemma add_all_data_existing items st :
  (∀ d, d ∈ items → is_Some (get (id d) st)) → data (add_all items st) = data st.
Proof.
  revert st. induction items as [|item items IH]; intros st Hall; [done|].
  rewrite add_all_cons.
  assert (data (add item st).1 = data st) as Hsame.
  { apply add_data_existing, Hall. by left. }
  rewrite IH; [done|].
  intros d Hd. unfold get. rewrite Hsame. apply Hall. by right.
Qed.

(** ** Derived views *)

Lemma present_true {A} (x : option A) : present x = true ↔ is_Some x.
Proof. destruct x; simpl; split; intros H; try done; by destruct H. Qed.

Lemma present_false {A} (x : option A) : present x = false ↔ x = None.
Proof. by destruct x. Qed.

Lemma drafts_sorted_filter st :
  drafts st = orderBy_desc updatedAt (filter (λ d, publishedAt d = None) (values st)).
Proof.
  unfold drafts. rewrite filter_orderBy_desc. f_equal.
  apply list_filter_iff. intros d. apply present_false.
Qed.

(** C8. The derived views select and sort as specified: [publishedInCollection]
    holds exactly the table's documents of the collection that have a
    [publishedAt], so none without; [recentlyUpdatedInCollection] is that
    selection in descending [updatedAt] order; [drafts] is the documents
    without [publishedAt] in descending [updatedAt] order.  For a table holding
    A (updatedAt 2), B (updatedAt 5) and C (updatedAt 1) of one collection, in
    any insertion order, all published but C,
    [recentlyUpdatedInCollection] is [B; A] and [drafts] is [C]. *)
Theorem derived_views_select_and_sort (st : Store) (c : string) :
  (∀ d, d ∈ publishedInCollection c st ↔
        d ∈ values st ∧ collectionId d = c ∧ is_Some (publishedAt d))
  ∧ (∀ d, d ∈ publishedInCollection c st → publishedAt d ≠ None)
  ∧ (recentlyUpdatedInCollection c st ≡ₚ publishedInCollection c st
     ∧ descending updatedAt (recentlyUpdatedInCollection c st))
  ∧ (drafts st = orderBy_desc updatedAt (filter (λ d, publishedAt d = None) (values st))
     ∧ drafts st ≡ₚ filter (λ d, publishedAt d = None) (values st)
     ∧ descending updatedAt (drafts st))
  ∧ (∀ A B C,
       values st ≡ₚ [A; B; C] →
       collectionId A = c → collectionId B = c → collectionId C = c →
       updatedAt A = 2 → updatedAt B = 5 → updatedAt C = 1 →
       is_Some (publishedAt A) → is_Some (publishedAt B) → publishedAt C = None →
       recentlyUpdatedInCollection c st = [B; A] ∧ drafts st = [C]).
Proof.
  assert (∀ d, d ∈ publishedInCollection c st ↔
               d ∈ values st ∧ collectionId d = c ∧ is_Some (publishedAt d)) as Hsel.
  { intros d. unfold publishedInCollection.
    rewrite list_elem_of_filter, present_true. tauto. }
  split; [exact Hsel|]. split.
  { intros d [_ [_ [t Ht]]]%Hsel. congruence. }
  split.
  { split; [apply orderBy_desc_Permutation|apply orderBy_desc_descending]. }
  split.
  { rewrite drafts_sorted_filter. split; [done|].
    split; [apply orderBy_desc_Permutation|apply orderBy_desc_descending]. }
  intros A B C Hperm HA HB HC H2 H5 H1 HpA HpB HpC. split.
  - assert (recentlyUpdatedInCollection c st ≡ₚ [A; B]) as Hp.
    { unfold recentlyUpdatedInCollection. rewrite orderBy_desc_Permutation.
      unfold publishedInCollection. rewrite Hperm.
      rewrite filter_cons_True by (by rewrite present_true).
      rewrite filter_cons_True by (by rewrite present_true).
      rewrite filter_cons_False; [done|].
      rewrite HpC. by intros [_ ?]. }
    pose proof (orderBy_desc_descending updatedAt (publishedInCollection c st)) as Hs.
    fold (recentlyUpdatedInCollection c st) in Hs.
    symmetry in Hp. apply Permutation_length_2_inv in Hp as [Heq|Heq]; [|done].
    rewrite Heq in Hs. inversion Hs as [|? ? _ Hall]; subst.
    apply Forall_cons_1 in Hall as [Hle _]. simpl in Hle. lia.
  - rewrite drafts_sorted_filter.
    assert (filter (λ d, publishedAt d = None) (values st) ≡ₚ [C]) as Hp.
    { rewrite Hperm.
      rewrite filter_cons_False by (intros Hn; rewrite Hn in HpA; by destruct HpA).
      rewrite filter_cons_False by (intros Hn; rewrite Hn in HpB; by destruct HpB).
      by rewrite filter_cons_True. }
    apply Permutation_singleton_r.
    by rewrite orderBy_desc_Permutation.
Qed.

(** The scenario, run on the store built by adding A, B, C in that order. *)
Lemma derived_views_scenario :
  values scenario_store = [docA; docB; docC]
  ∧ recentlyUpdatedInCollection "X" scenario_store = [docB; docA]
  ∧ drafts scenario_store = [docC].
Proof.
  split; [reflexivity|].
  apply (derived_views_select_and_sort scenario_store "X");
    try reflexivity; by eexists.
Defined.

(** ** Named-page fetches *)

(** C4. [fetchNamedPage] leaves [isFetching] false whatever the transport
    answers: rejection, a response without [data], or a page; the same holds
    when the call resumes on a store other tasks changed meanwhile.  A response
    without [data] raises the invariant violation.  On a page the call returns
    the raw list, [isLoaded] is true, and every entity of the page is in the
    table, under its id, with an instance holding an entity of the page with
    that id. *)
Theorem fetchNamedPage_outcomes (name : option string) (options : option PaginationParams)
    (answer : response (list Document)) (st : Store) :
  let st' := (fetchNamedPage name options answer st).1 in
  let out := (fetchNamedPage name options answer st).2 in
  isFetching st' = false
  ∧ (∀ st0, isFetching (fetchNamedPage_resume answer st0).1 = false)
  ∧ match answer with
    | Rejected reason => out = Raised (TransportFailure reason)
    | Resolved None | Resolved (Some {| res_data := None |}) =>
        out = Raised (InvariantViolation "Document list not available")
    | Resolved (Some {| res_data := Some items |}) =>
        out = Returned items
        ∧ isLoaded st' = true
        ∧ ∀ d, d ∈ items →
            ∃ r, get (id d) st' = Some r
                 ∧ (well_formed st →
                    ∃ d', deref st' r = Some d' ∧ id d' = id d ∧ d' ∈ items)
    end.
Proof.
  assert (∀ st0, isFetching (fetchNamedPage_resume answer st0).1 = false) as Hflag.
  { intros st0. unfold fetchNamedPage_resume.
    destruct answer as [reason|[[[items|]]|]]; done. }
  split; [apply Hflag|]. split; [exact Hflag|].
  unfold fetchNamedPage, fetchNamedPage_resume.
  destruct answer as [reason|[[[items|]]|]]; simpl; try done.
  split; [done|]. split; [done|].
  intros d Hd.
  apply (add_all_added d items (fetchNamedPage_start name options st)) in Hd
    as (r & Hr & Hcontent).
  exists r. split; [exact Hr|]. intros Hwf. by apply Hcontent.
Qed.

(** A "starred" page that updates B and brings a new document D. *)
Lemma fetchNamedPage_outcomes_witness :
  let page := [mkDocument "B" "X" 9 (Some 5); mkDocument "D" "Y" 3 None] in
  let st' := (fetchNamedPage (Some "starred") None
                (Resolved (Some {| res_data := Some page |})) scenario_store).1 in
  well_formed scenario_store
  ∧ isFetching st' = false
  ∧ ∀ d, d ∈ page → ∃ r d', get (id d) st' = Some r ∧ deref st' r = Some d' ∧ id d' = id d.
Proof.
  intros page st'.
  assert (well_formed scenario_store) as Hwf by compute_done.
  destruct (fetchNamedPage_outcomes (Some "starred") None
              (Resolved (Some {| res_data := Some page |})) scenario_store)
    as (Hflag & _ & _ & _ & Hadded).
  split; [exact Hwf|]. split; [exact Hflag|].
  intros d Hd. destruct (Hadded d Hd) as (r & Hr & Hcontent).
  destruct (Hcontent Hwf) as (d' & Hd' & Hid & _). by exists r, d'.
Defined.

(** ** Single-document fetch *)

Lemma getByUrl_Some url st r :
  getByUrl url st = Some r →
  r ∈ value_refs st ∧ ∃ d, deref st r = Some d ∧ endsWith url (urlId d) = true.
Proof.
  unfold getByUrl. intros [Hin Hmatch]%find_some.
  split; [by apply list_elem_of_In|].
  destruct (deref st r) as [d|]; [by exists d|done].
Qed.

Lemma getByUrl_None url st r d :
  getByUrl url st = None → r ∈ value_refs st → deref st r = Some d →
  endsWith url (urlId d) = false.
Proof.
  unfold getByUrl. intros Hnone Hin%list_elem_of_In Hd.
  pose proof (find_none _ _ Hnone r Hin) as Hf. simpl in Hf. by rewrite Hd in Hf.
Qed.

Lemma fetch_start_lookup ident options st :
  fetch_start ident options st =
    let st1 := if negb (truthy (prefetch options)) then set_isFetching true st else st in
    match get ident st with
    | Some doc => (set_isFetching false st1, Completed (Returned (Some doc)))
    | None =>
        match getByUrl ident st with
        | Some doc => (set_isFetching false st1, Completed (Returned (Some doc)))
        | None => (send (POST_info ident (shareId options)) st1, Waiting)
        end
    end.
Proof.
  unfold fetch_start. destruct (negb (truthy (prefetch options))); simpl.
  - change (get ident (set_isFetching true st)) with (get ident st).
    change (getByUrl ident (set_isFetching true st)) with (getByUrl ident st).
    by destruct (get ident st), (getByUrl ident st).
  - by destruct (get ident st), (getByUrl ident st).
Qed.

(** C5. [fetch] answers from the table when it can.  An id that is a key of the
    table yields its instance, and no request.  An id that is no key but ends
    with the [urlId] of a cached document yields a cached instance whose
    [urlId] it ends with (the first in table order, hence that document when
    it is the only match), and no request.  Only when both lookups fail is one
    [documents.info] request sent; on a response with [data] the entity is in
    the table, [isLoaded] is true and the instance is returned. *)
Theorem fetch_cached_or_requested (ident : string) (options : FetchOptions)
    (answer : response Document) (st : Store) :
  let st' := (fetch ident options answer st).1 in
  let out := (fetch ident options answer st).2 in
  (∀ r, get ident st = Some r →
     out = Returned (Some r) ∧ requests st' = requests st ∧ deref st' r = deref st r)
  ∧ (∀ r d, get ident st = None →
       r ∈ value_refs st → deref st r = Some d → endsWith ident (urlId d) = true →
       ∃ r' d', out = Returned (Some r') ∧ requests st' = requests st
                ∧ r' ∈ value_refs st ∧ deref st' r' = Some d'
                ∧ endsWith ident (urlId d') = true
                ∧ ((∀ r2 d2, r2 ∈ value_refs st → deref st r2 = Some d2 →
                      endsWith ident (urlId d2) = true → r2 = r) → r' = r))
  ∧ (get ident st = None → getByUrl ident st = None →
       requests st' = requests st ++ [POST_info ident (shareId options)]
       ∧ ∀ item, answer = Resolved (Some {| res_data := Some item |}) →
           ∃ r, out = Returned (Some r) ∧ get (id item) st' = Some r
                ∧ isLoaded st' = true
                ∧ (well_formed st → deref st' r = Some item))
  ∧ (requests st' ≠ requests st → get ident st = None ∧ getByUrl ident st = None).
Proof.
  unfold fetch. rewrite fetch_start_lookup. simpl.
  destruct (get ident st) as [hit|] eqn:Hget.
  { split; [|split; [done|split; [done|]]].
    - intros r [= <-]. by destruct (negb (truthy (prefetch options))).
    - simpl. intros Hreq. destruct (negb (truthy (prefetch options))); by destruct Hreq. }
  destruct (getByUrl ident st) as [hit|] eqn:Hurl.
  { split; [done|]. split; [|split; [done|]].
    - intros r d _ Hr Hd Hmatch.
      destruct (getByUrl_Some _ _ _ Hurl) as (Hin & d' & Hd' & Hmatch').
      exists hit, d'. split; [done|].
      split; [by destruct (negb (truthy (prefetch options)))|]. split; [done|].
      split; [by destruct (negb (truthy (prefetch options)))|]. split; [done|].
      intros Honly. by eapply Honly.
    - simpl. intros Hreq. destruct (negb (truthy (prefetch options))); by destruct Hreq. }
  split; [done|]. split; [|split; [|done]].
  { intros r d _ Hr Hd Hmatch.
    by rewrite (getByUrl_None _ _ _ _ Hurl Hr Hd) in Hmatch. }
  intros _ _. unfold fetch_resume.
  set (st1 := if negb (truthy (prefetch options)) then set_isFetching true st else st).
  assert (requests st1 = requests st) as Hreq by (subst st1; by destruct (negb _)).
  split.
  { destruct answer as [reason|[[[item|]]|]]; simpl; rewrite ?Hreq; try done.
    destruct (add_frame item (send (POST_info ident (shareId options)) st1))
      as (_ & _ & _ & _ & ->).
    simpl. by rewrite Hreq. }
  intros item ->. simpl.
  set (st2 := send (POST_info ident (shareId options)) st1).
  exists (add item st2).2. split; [|split; [|split; [done|]]].
  - f_equal. apply (get_add_same item st2).
  - apply (get_add_same item st2).
  - intros Hwf. apply (deref_add_same item st2).
    subst st2 st1. by destruct (negb _).
Qed.

(** "some-title-u-B" is no key of the scenario table but ends with B's [urlId]. *)
Lemma fetch_cached_or_requested_witness :
  get "some-title-u-B" scenario_store = None
  ∧ ∃ r' d',
      (fetch "some-title-u-B" no_options (Rejected "offline") scenario_store).2
        = Returned (Some r')
      ∧ requests (fetch "some-title-u-B" no_options (Rejected "offline") scenario_store).1
        = requests scenario_store
      ∧ deref scenario_store r' = Some d' ∧ d' = docB.
Proof.
  split; [reflexivity|].
  destruct (fetch_cached_or_requested "some-title-u-B" no_options
              (Rejected "offline") scenario_store) as (_ & Hurl & _).
  destruct (Hurl 1%nat docB) as (r' & d' & Hout & Hreq & _ & Hd' & _ & Honly);
    [reflexivity|compute_done|reflexivity|reflexivity|].
  exists r', d'. split; [exact Hout|]. split; [exact Hreq|].
  assert (r' = 1%nat) as ->.
  { apply Honly. intros r2 d2 Hin. vm_compute in Hin.
    repeat (apply elem_of_cons in Hin as [->|Hin]); [..|by apply elem_of_nil in Hin];
      vm_compute; intros; simplify_eq; done. }
  vm_compute in Hd'. injection Hd' as <-. split; reflexivity.
Defined.

(** The part of the prefetch option that the code honours: a prefetch that has
    to ask the transport leaves [isFetching] as it found it while it waits. *)
Lemma fetch_start_prefetch_waiting ident options st st1 :
  truthy (prefetch options) = true →
  fetch_start ident options st = (st1, Waiting) →
  isFetching st1 = isFetching st.
Proof.
  intros Hpre. rewrite fetch_start_lookup, Hpre. simpl.
  destruct (get ident st); [done|]. destruct (getByUrl ident st); [done|].
  by intros [= <-].
Qed.

(** What [finally] does to the flag, prefetch or not. *)
Lemma fetch_isFetching ident options answer st :
  isFetching (fetch ident options answer st).1 = false.
Proof.
  unfold fetch. rewrite fetch_start_lookup. simpl.
  destruct (get ident st); [done|]. destruct (getByUrl ident st); [done|].
  unfold fetch_resume. by destruct answer as [reason|[[[item|]]|]].
Qed.

(** C7, as the code behaves.  A page fetch is waiting for the transport, so
    [isFetching] is true; a prefetch of a document then runs to completion,
    whatever the transport answers, and leaves [isFetching] false although the
    page fetch is still waiting. *)
Lemma fetch_prefetch_resets_isFetching :
  let busy := fetchNamedPage_start (Some "list") None empty_store in
  let options := {| prefetch := Some true; shareId := None |} in
  isFetching busy = true
  ∧ ∀ answer, isFetching (fetch "doc-1" options answer busy).1 = false.
Proof. split; [reflexivity|]. intros answer. apply fetch_isFetching. Qed.

(** C10. [prefetchDocument] on an id that is a key of the table returns
    [undefined] and touches nothing: no request, not the cached document.  On
    any other id it is [fetch] with [prefetch] set, and nothing else: an id
    that only the [urlId] lookup of [fetch] resolves is handed to [fetch],
    which answers from the table; an id that nothing resolves is requested
    again by every call, whether or not a request for it is already under
    way. *)
Theorem prefetchDocument_fetch_if_absent (ident : string) (answer : response Document)
    (st : Store) :
  let options := {| prefetch := Some true; shareId := None |} in
  (∀ r, get ident st = Some r →
     prefetchDocument ident answer st = (st, None)
     ∧ prefetchDocument_start ident st = (st, None))
  ∧ (get ident st = None →
       prefetchDocument ident answer st =
         ((fetch ident options answer st).1, Some (fetch ident options answer st).2)
       ∧ prefetchDocument_start ident st =
         ((fetch_start ident options st).1, Some (fetch_start ident options st).2))
  ∧ (∀ r, get ident st = None → getByUrl ident st = Some r →
       (prefetchDocument ident answer st).2 = Some (Returned (Some r))
       ∧ requests (prefetchDocument ident answer st).1 = requests st)
  ∧ (get ident st = None → getByUrl ident st = None →
       let st1 := (prefetchDocument_start ident st).1 in
       let st2 := (prefetchDocument_start ident st1).1 in
       (prefetchDocument_start ident st).2 = Some Waiting
       ∧ (prefetchDocument_start ident st1).2 = Some Waiting
       ∧ requests st2 = requests st ++ [POST_info ident None; POST_info ident None]).
Proof.
  simpl. unfold prefetchDocument, prefetchDocument_start.
  destruct (get ident st) as [hit|] eqn:Hget; simpl.
  { split; [by intros r _|]. by repeat split. }
  split; [done|]. split.
  { split; [by destruct (fetch _ _ _ _)|by destruct (fetch_start _ _ _)]. }
  unfold fetch. rewrite fetch_start_lookup, Hget. simpl.
  destruct (getByUrl ident st) as [hit|] eqn:Hurl; simpl.
  { split; [|done]. by intros r _ [= <-]. }
  split; [done|]. intros _ _.
  change (get ident (send (POST_info ident None) st)) with (get ident st).
  rewrite Hget. simpl. rewrite fetch_start_lookup. simpl.
  change (get ident (send (POST_info ident None) st)) with (get ident st).
  change (getByUrl ident (send (POST_info ident None) st)) with (getByUrl ident st).
  rewrite Hget, Hurl. simpl. by rewrite <- app_assoc.
Qed.

(** Two prefetches of an unknown document in a row, before any answer. *)
Lemma prefetchDocument_fetch_if_absent_witness :
  get "doc-9" scenario_store = None
  ∧ getByUrl "doc-9" scenario_store = None
  ∧ requests (prefetchDocument_start "doc-9"
                (prefetchDocument_start "doc-9" scenario_store).1).1
    = [POST_info "doc-9" None; POST_info "doc-9" None].
Proof.
  split; [reflexivity|]. split; [reflexivity|].
  destruct (prefetchDocument_fetch_if_absent "doc-9" (Rejected "offline") scenario_store)
    as (_ & _ & _ & Htwice).
  destruct Htwice as (_ & _ & Hreq); [reflexivity..|]. exact Hreq.
Defined.

(** ** The recently-viewed list *)

Lemma baseUniq_app result a b :
  baseUniq result (a ++ b) = baseUniq (baseUniq result a) b.
Proof.
  revert result. induction a as [|x a IH]; intros result; simpl; [done|].
  by case_bool_decide.
Qed.

Lemma baseUniq_extends result array :
  ∃ new, baseUniq result array = result ++ new
         ∧ ∀ x, x ∈ new → x ∈ array ∧ x ∉ result.
Proof.
  revert result. induction array as [|x array IH]; intros result; simpl.
  - exists []. split; [by rewrite app_nil_r|]. by intros x ?%elem_of_nil.
  - case_bool_decide as Hx.
    + destruct (IH result) as (new & -> & Hnew).
      exists new. split; [done|]. intros y Hy.
      destruct (Hnew y Hy). split; [by right|done].
    + destruct (IH (result ++ [x])) as (new & -> & Hnew).
      exists (x :: new). split; [by rewrite <- app_assoc|].
      intros y [->|Hy]%elem_of_cons; [split; [by left|done]|].
      destruct (Hnew y Hy) as [? Hnotin]. split; [by right|].
      intros ?. apply Hnotin, elem_of_app. by left.
Qed.

Lemma elem_of_baseUniq x result array :
  x ∈ baseUniq result array ↔ x ∈ result ∨ x ∈ array.
Proof.
  revert result. induction array as [|y array IH]; intros result; simpl.
  - split; [by left|]. by intros [?|?%elem_of_nil].
  - case_bool_decide as Hy; rewrite IH, elem_of_cons.
    + split; [intros [?|?]; auto|].
      intros [?|[->|?]]; auto.
    + rewrite elem_of_app, list_elem_of_singleton. tauto.
Qed.

Lemma baseUniq_NoDup result array : NoDup result → NoDup (baseUniq result array).
Proof.
  revert result. induction array as [|x array IH]; intros result Hnd; simpl; [done|].
  case_bool_decide as Hx; apply IH; [done|].
  apply NoDup_app. split; [done|]. split; [|apply NoDup_singleton].
  by intros y Hy ->%list_elem_of_singleton.
Qed.

(** A list without duplicates is left as it is. *)
Lemma baseUniq_NoDup_id result array :
  NoDup (result ++ array) → baseUniq result array = result ++ array.
Proof.
  revert result. induction array as [|x array IH]; intros result Hnd; simpl.
  - by rewrite app_nil_r.
  - apply NoDup_app in Hnd as Hparts. destruct Hparts as (_ & Hdisj & _).
    rewrite bool_decide_eq_false_2.
    + rewrite IH; rewrite <- app_assoc; done.
    + intros Hx. apply (Hdisj x Hx). by left.
Qed.

Lemma uniq_NoDup array : NoDup (uniq array).
Proof. apply baseUniq_NoDup, NoDup_nil_2. Qed.

Lemma uniq_app_NoDup old ids : NoDup old → uniq (old ++ ids) = baseUniq old ids.
Proof.
  intros Hnd. unfold uniq. rewrite baseUniq_app. f_equal.
  by apply (baseUniq_NoDup_id [] old).
Qed.

Lemma fetchRecentlyViewed_ids options page st :
  recentlyViewedIds
    (fetchRecentlyViewed options (Resolved (Some {| res_data := Some page |})) st).1
  = uniq (recentlyViewedIds st ++ map id page).
Proof.
  unfold fetchRecentlyViewed, fetchRecentlyViewed_resume, fetchNamedPage_resume. simpl.
  by destruct (add_all_frame page
                 (fetchRecentlyViewed_start options st)) as (_ & _ & -> & _).
Qed.

(** C6. Two [fetchRecentlyViewed] calls in a row, each answered with a page:
    the list after the second call has no duplicates, holds exactly the ids of
    the list after the first call and of the second page (so, of the original
    list and both pages), keeps every id of the list after the first call at
    its index, and continues with ids of the second page that were not yet in
    the list. *)
Theorem fetchRecentlyViewed_merges_ids (options1 options2 : option PaginationParams)
    (page1 page2 : list Document) (st : Store) :
  let st1 :=
    (fetchRecentlyViewed options1 (Resolved (Some {| res_data := Some page1 |})) st).1 in
  let st2 :=
    (fetchRecentlyViewed options2 (Resolved (Some {| res_data := Some page2 |})) st1).1 in
  NoDup (recentlyViewedIds st1)
  ∧ NoDup (recentlyViewedIds st2)
  ∧ (∀ x, x ∈ recentlyViewedIds st2 ↔
          x ∈ recentlyViewedIds st1 ∨ x ∈ map id page2)
  ∧ (∀ x, x ∈ recentlyViewedIds st2 ↔
          x ∈ recentlyViewedIds st ∨ x ∈ map id page1 ∨ x ∈ map id page2)
  ∧ (∀ i x, recentlyViewedIds st1 !! i = Some x → recentlyViewedIds st2 !! i = Some x)
  ∧ ∃ new, recentlyViewedIds st2 = recentlyViewedIds st1 ++ new
           ∧ ∀ x, x ∈ new → x ∈ map id page2 ∧ x ∉ recentlyViewedIds st1.
Proof.
  intros st1 st2.
  assert (recentlyViewedIds st1 = uniq (recentlyViewedIds st ++ map id page1)) as H1
    by apply fetchRecentlyViewed_ids.
  assert (NoDup (recentlyViewedIds st1)) as Hnd1 by (rewrite H1; apply uniq_NoDup).
  assert (recentlyViewedIds st2 = baseUniq (recentlyViewedIds st1) (map id page2)) as H2.
  { subst st2. rewrite fetchRecentlyViewed_ids. by apply uniq_app_NoDup. }
  split; [done|]. split; [rewrite H2; by apply baseUniq_NoDup|].
  split; [intros x; rewrite H2; apply elem_of_baseUniq|].
  split.
  { intros x. rewrite H2, elem_of_baseUniq, H1. unfold uniq.
    rewrite elem_of_baseUniq, elem_of_app, elem_of_nil. tauto. }
  destruct (baseUniq_extends (recentlyViewedIds st1) (map id page2)) as (new & Hext & Hnew).
  rewrite <- H2 in Hext. split; [|by exists new].
  intros i x Hi. rewrite Hext. by apply lookup_app_l_Some.
Qed.

(** ** The search cache *)

Section Splice.
Context {A : Type}.
Implicit Types (l items : list A) (o k : nat).

(** [splice] at a non-negative position, on naturals. *)
Lemma splice_nonneg l start deleteCount items :
  0 ≤ start → 0 ≤ deleteCount →
  splice l start deleteCount items =
    take (Z.to_nat start) l ++ items
      ++ drop (Nat.min (Z.to_nat start) (length l) + Z.to_nat deleteCount)%nat l.
Proof.
  intros Hs Hd. unfold splice.
  destruct (Z.ltb_spec start 0) as [?|_]; [lia|].
  f_equal; [|f_equal].
  - destruct (Z.le_ge_cases start (Z.of_nat (length l))).
    + by rewrite Z.min_l.
    + rewrite Z.min_r, Nat2Z.id by done. rewrite !take_ge; [done|lia..].
  - destruct (Z.le_ge_cases (start + deleteCount) (Z.of_nat (length l))).
    + f_equal. lia.
    + rewrite !drop_ge; [done|lia..].
Qed.

Lemma length_splice_nonneg l start deleteCount items :
  0 ≤ start → 0 ≤ deleteCount →
  let s := Nat.min (Z.to_nat start) (length l) in
  let d := Nat.min (Z.to_nat deleteCount) (length l - s) in
  length (splice l start deleteCount items) = (length l - d + length items)%nat.
Proof.
  intros Hs Hd s d. rewrite splice_nonneg by done.
  rewrite !length_app, length_take, length_drop. lia.
Qed.

(** A full page put at or before the end: the positions outside the page keep
    their element, the page sits at its offset, the length does not drop. *)
Lemma splice_full_page l o k items :
  (o ≤ length l)%nat → length items = k →
  let l' := splice l (Z.of_nat o) (Z.of_nat k) items in
  length l' = Nat.max (length l) (o + k)
  ∧ (∀ i, (i < o)%nat → l' !! i = l !! i)
  ∧ (∀ j, (j < k)%nat → l' !! (o + j)%nat = items !! j)
  ∧ (∀ i, (o + k ≤ i)%nat → l' !! i = l !! i).
Proof.
  intros Ho Hk l'. subst l'. rewrite splice_nonneg by lia.
  rewrite !Nat2Z.id, Nat.min_l by done.
  split; [|split; [|split]].
  - rewrite !length_app, length_take, length_drop. lia.
  - intros i Hi. rewrite lookup_app_l by (rewrite length_take; lia).
    by rewrite lookup_take_lt.
  - intros j Hj. rewrite lookup_app_r by (rewrite length_take; lia).
    rewrite length_take, Nat.min_l by done.
    replace (o + j - o)%nat with j by lia.
    by rewrite lookup_app_l by lia.
  - intros i Hi. rewrite lookup_app_r by (rewrite length_take; lia).
    rewrite length_take, Nat.min_l by done.
    rewrite lookup_app_r by lia.
    rewrite lookup_drop. f_equal. lia.
Qed.
End Splice.

Lemma resolve_refers_to st found :
  (∀ result, result ∈ found → is_Some (get (id (document result)) st)) →
  Forall2 (refers_to st) found (resolve st found).
Proof.
  induction found as [|result found IH]; intros Hall; [constructor|].
  unfold resolve. simpl.
  destruct (Hall result) as [r Hr]; [by left|].
  rewrite Hr. simpl. constructor.
  - done.
  - apply IH. intros ? ?. apply Hall. by right.
Qed.

(** Every result of the API is on the stored page: none is dropped, because
    its document has just been added. *)
Lemma page_of_refers_to st found :
  Forall2 (refers_to (add_all (map document found) st)) found (page_of st found).
Proof.
  apply resolve_refers_to. intros result Hin.
  destruct (add_all_added (document result) (map document found) st) as (r & Hr & _).
  - apply list_elem_of_fmap. by exists result.
  - by exists r.
Qed.

Lemma length_page_of st found : length (page_of st found) = length found.
Proof. symmetry. eapply Forall2_length, page_of_refers_to. Qed.

Lemma search_found query options found st :
  search query options (found_page found) st =
    let st0 := search_start query options st in
    let st1 := add_all (map document found) st0 in
    (set_searchCache
       (<[query := splice (searchResults query st) (or_zero (offset options))
                     (or_zero (limit options)) (page_of st0 found)]> (searchCache st1))
       st1,
     Returned found).
Proof.
  unfold found_page, search, search_resume, page_of, searchResults. simpl.
  by destruct (add_all_frame (map document found) (search_start query options st))
    as (_ & _ & _ & -> & _).
Qed.

Lemma searchResults_search query options found st :
  searchResults query
    (search query options (found_page found) st).1
  = splice (searchResults query st) (or_zero (offset options))
      (or_zero (limit options)) (page_of (search_start query options st) found).
Proof.
  rewrite search_found. unfold searchResults at 1. simpl.
  by rewrite lookup_insert_eq.
Qed.

Lemma searchResults_search_other query query' options found st :
  query ≠ query' →
  searchResults query'
    (search query options (found_page found) st).1
  = searchResults query' st.
Proof.
  intros Hne. rewrite search_found. unfold searchResults. simpl.
  rewrite lookup_insert_ne by done.
  by destruct (add_all_frame (map document found) (search_start query options st))
    as (_ & _ & _ & -> & _).
Qed.

Lemma or_zero_Some n : or_zero (Some n) = n.
Proof. simpl. by destruct (Z.eqb_spec n 0). Qed.

(** A full page fetched at an offset within the cached sequence. *)
Lemma search_full_page query options found st o k :
  or_zero (offset options) = Z.of_nat o → or_zero (limit options) = Z.of_nat k →
  (o ≤ length (searchResults query st))%nat → length found = k →
  let st' := (search query options (found_page found) st).1 in
  let page := page_of (search_start query options st) found in
  length (searchResults query st') = Nat.max (length (searchResults query st)) (o + k)
  ∧ (∀ i, (i < o)%nat → searchResults query st' !! i = searchResults query st !! i)
  ∧ (∀ j, (j < k)%nat → searchResults query st' !! (o + j)%nat = page !! j)
  ∧ (∀ i, (o + k ≤ i)%nat → searchResults query st' !! i = searchResults query st !! i).
Proof.
  intros Ho Hk Hin Hfull st' page. subst st'.
  rewrite searchResults_search, Ho, Hk. fold page.
  apply splice_full_page; [done|]. subst page. by rewrite length_page_of.
Qed.

(** Without offset and limit nothing is overwritten: the page goes in front of
    what is cached. *)
Lemma search_without_window query found st :
  searchResults query (search query no_pagination (found_page found) st).1
  = page_of (search_start query no_pagination st) found ++ searchResults query st.
Proof.
  rewrite searchResults_search. simpl. rewrite splice_nonneg by done.
  simpl. by rewrite drop_0.
Qed.

(** C1, as the specification states it, fails.  The cache holds three results
    for "q"; fetching the range [0, 2) again brings one result only: the cache is left
    with two results, and the result that sat at index 2, outside the fetched
    range, sits at index 1.  On a store that never searched "q", the page for
    the range [10, 13) occupies the indices 0 to 2. *)
Lemma search_cache_shrinks_on_short_page :
  let st' := (search "q" (window 0 2) (found_page [hit "A" 3]) searched_store).1 in
  let gap := (search "q" (window 10 3) (found_page [hit "A" 3; hit "B" 2; hit "C" 1])
                empty_store).1 in
  ¬ (length (searchResults "q" searched_store) ≤ length (searchResults "q" st'))%nat
  ∧ searchResults "q" st' !! 2%nat ≠ searchResults "q" searched_store !! 2%nat
  ∧ searchResults "q" st' !! 1%nat = searchResults "q" searched_store !! 2%nat
  ∧ is_Some (searchResults "q" gap !! 0%nat)
  ∧ searchResults "q" gap !! 10%nat = None.
Proof.
  vm_compute. split; [lia|]. split; [done|]. split; [done|]. split; [by eexists|done].
Qed.

(** C1, amended.  A [search] answered with results stores exactly one cached
    result per result found, each referring to the table's instance.  With
    [old] the sequence cached for the query, [s] the offset cut to the length
    of [old] and [d] the limit cut to what [old] has from [s] on (absent offset
    and limit count as 0), the new sequence is the first [s] results of [old],
    then the page, then [old] from [s + d] on; its length is that of [old]
    minus [d] plus the size of the page, and no other query is touched.  When
    the offset is within [old] and the page is full (as many results as the
    limit), the page occupies exactly [offset, offset + limit), every index
    outside that range keeps its result, and the length is the larger of the
    old length and [offset + limit], so it does not drop. *)
Theorem search_splices_page (query : string) (options : PaginationParams)
    (found : list (SearchResult Document)) (st : Store) :
  0 ≤ or_zero (offset options) → 0 ≤ or_zero (limit options) →
  let st' := (search query options (found_page found) st).1 in
  let old := searchResults query st in
  let new := searchResults query st' in
  let page := page_of (search_start query options st) found in
  let o := Z.to_nat (or_zero (offset options)) in
  let k := Z.to_nat (or_zero (limit options)) in
  let s := Nat.min o (length old) in
  let d := Nat.min k (length old - s) in
  Forall2 (refers_to st') found page
  ∧ new = take s old ++ page ++ drop (s + d) old
  ∧ length new = (length old - d + length found)%nat
  ∧ (∀ query', query ≠ query' → searchResults query' st' = searchResults query' st)
  ∧ ((o ≤ length old)%nat → length found = k →
       length new = Nat.max (length old) (o + k)
       ∧ (length old ≤ length new)%nat
       ∧ (∀ i, (i < o)%nat → new !! i = old !! i)
       ∧ (∀ j, (j < k)%nat → new !! (o + j)%nat = page !! j)
       ∧ (∀ i, (o + k ≤ i)%nat → new !! i = old !! i)).
Proof.
  intros Ho Hk st' old new page o k s d.
  assert (new = splice old (or_zero (offset options)) (or_zero (limit options)) page)
    as Hnew by apply searchResults_search.
  assert (length page = length found) as Hlen by apply length_page_of.
  split.
  { subst st'. rewrite search_found. apply page_of_refers_to. }
  split.
  { rewrite Hnew, splice_nonneg by done. fold o k.
    assert (take o old = take s old) as ->.
    { subst s. destruct (Nat.le_ge_cases o (length old)).
      - by rewrite Nat.min_l.
      - rewrite Nat.min_r by done. by rewrite !take_ge by lia. }
    do 2 f_equal. fold s. subst d.
    destruct (Nat.le_ge_cases k (length old - s)).
    - by rewrite Nat.min_l.
    - by rewrite !drop_ge by lia. }
  split.
  { rewrite Hnew, length_splice_nonneg by done. by rewrite Hlen. }
  split.
  { intros query' Hne. by apply searchResults_search_other. }
  intros Hin Hfull.
  destruct (search_full_page query options found st o k) as (Hl & Hrest);
    [lia..|done|done|].
  fold st' new old in Hl, Hrest. split; [done|]. split; [lia|done].
Qed.

(** The range [1, 3) of a three-result cache, fetched again with two results. *)
Lemma search_splices_page_witness :
  let st' := (search "q" (window 1 2) (found_page [hit "D" 7; hit "B" 2]) searched_store).1 in
  length (searchResults "q" st') = 3%nat
  ∧ searchResults "q" st' !! 0%nat = searchResults "q" searched_store !! 0%nat
  ∧ searchResults "q" st' !! 1%nat =
      Some {| ranking := 7; context := "... D ..."; document := 3%nat |}.
Proof.
  destruct (search_splices_page "q" (window 1 2) [hit "D" 7; hit "B" 2] searched_store)
    as (_ & _ & _ & _ & Hfull); [by vm_compute..|].
  destruct Hfull as (Hlen & _ & Hbefore & Hpage & _); [vm_compute; lia|reflexivity|].
  split; [exact Hlen|]. split; [apply Hbefore; vm_compute; lia|].
  assert (0 < Z.to_nat (or_zero (limit (window 1 2))))%nat as Hlt by (vm_compute; lia).
  exact (Hpage 0%nat Hlt).
Defined.

Lemma resolve_data st1 st2 found :
  data st1 = data st2 → resolve st1 found = resolve st2 found.
Proof. intros Heq. unfold resolve, get. by rewrite Heq. Qed.

(** Searching again for documents that are all in the table stores the same
    page: the instances are the ones already referred to. *)
Lemma page_of_again query options query' options' found st :
  page_of (search_start query' options'
             (search query options (found_page found) st).1) found
  = page_of (search_start query options st) found.
Proof.
  rewrite search_found. simpl. unfold page_of.
  set (st1 := add_all (map document found) (search_start query options st)).
  apply resolve_data. rewrite add_all_data_existing; [done|].
  intros d Hd.
  by destruct (add_all_added d (map document found) (search_start query options st) Hd)
    as (r & Hr & _); exists r.
Qed.

(** C2. [search(q, {offset: 0, limit: 10})] answered with 10 results, then
    [search(q, {offset: 10, limit: 10})] answered with 10 results: the indices
    0 to 9 of the cached sequence are as the first call left them, the indices
    10 to 19 hold the second page in order, one cached result per result found,
    and the sequence has 20 results, for a query with at most 20 results cached
    before (none, for a query never searched; a longer sequence keeps its
    length). *)
Theorem search_second_page_extends (query : string) (options1 options2 : PaginationParams)
    (found1 found2 : list (SearchResult Document)) (st : Store) :
  offset options1 = Some 0 → limit options1 = Some 10 →
  offset options2 = Some 10 → limit options2 = Some 10 →
  length found1 = 10%nat → length found2 = 10%nat →
  let st1 := (search query options1 (found_page found1) st).1 in
  let st2 := (search query options2 (found_page found2) st1).1 in
  let page2 := page_of (search_start query options2 st1) found2 in
  (∀ i, (i < 10)%nat → searchResults query st2 !! i = searchResults query st1 !! i)
  ∧ (∀ j, (j < 10)%nat → searchResults query st2 !! (10 + j)%nat = page2 !! j)
  ∧ Forall2 (refers_to st2) found2 page2
  ∧ length (searchResults query st2) = Nat.max 20 (length (searchResults query st))
  ∧ ((length (searchResults query st) ≤ 20)%nat →
     length (searchResults query st2) = 20%nat).
Proof.
  intros Ho1 Hl1 Ho2 Hl2 Hf1 Hf2 st1 st2 page2.
  destruct (search_full_page query options1 found1 st 0 10) as (Hlen1 & _);
    [by rewrite ?Ho1, ?Hl1..|lia|done|].
  fold st1 in Hlen1.
  destruct (search_full_page query options2 found2 st1 10 10)
    as (Hlen2 & Hbefore & Hpage & _); [by rewrite ?Ho2, ?Hl2..|lia|done|].
  fold st2 in Hlen2, Hbefore, Hpage. fold page2 in Hpage.
  split; [exact Hbefore|]. split; [exact Hpage|]. split.
  { subst st2 page2. rewrite search_found. apply page_of_refers_to. }
  split; lia.
Qed.

(** Two pages of ten results on a store that never searched "docs". *)
Lemma search_second_page_extends_witness :
  let names1 := ["a0"; "a1"; "a2"; "a3"; "a4"; "a5"; "a6"; "a7"; "a8"; "a9"] in
  let names2 := ["b0"; "b1"; "b2"; "b3"; "b4"; "b5"; "b6"; "b7"; "b8"; "b9"] in
  let st1 := (search "docs" (window 0 10) (found_page (map (λ n, hit n 1) names1))
                scenario_store).1 in
  let st2 := (search "docs" (window 10 10) (found_page (map (λ n, hit n 1) names2))
                st1).1 in
  length (searchResults "docs" st2) = 20%nat
  ∧ searchResults "docs" st2 !! 0%nat = searchResults "docs" st1 !! 0%nat.
Proof.
  intros names1 names2 st1 st2.
  destruct (search_second_page_extends "docs" (window 0 10) (window 10 10)
              (map (λ n, hit n 1) names1) (map (λ n, hit n 1) names2) scenario_store)
    as (Hbefore & _ & _ & _ & Hlen); [reflexivity..|].
  split; [apply Hlen; vm_compute; lia|apply Hbefore; lia].
Defined.

(** C3. [search(q, {offset: 0, limit: 10})] twice in a row, answered with the
    same 10 results: the second call overwrites the first page in place.  The
    cached sequence after the second call is the one after the first call; its
    length is 10, not 20, for a query with at most 10 results cached before
    (none, for a query never searched), and then it is the page itself. *)
Theorem search_same_page_twice (query : string) (options : PaginationParams)
    (found : list (SearchResult Document)) (st : Store) :
  offset options = Some 0 → limit options = Some 10 → length found = 10%nat →
  let st1 := (search query options (found_page found) st).1 in
  let st2 := (search query options (found_page found) st1).1 in
  searchResults query st2 = searchResults query st1
  ∧ length (searchResults query st2) = Nat.max 10 (length (searchResults query st))
  ∧ ((length (searchResults query st) ≤ 10)%nat →
     length (searchResults query st2) = 10%nat
     ∧ searchResults query st2 = page_of (search_start query options st) found).
Proof.
  intros Ho Hl Hf st1 st2.
  set (page := page_of (search_start query options st) found).
  assert (length page = 10%nat) as Hpage by (subst page; by rewrite length_page_of).
  assert (∀ l : list (SearchResult ref), splice l 0 10 page = page ++ drop 10 l) as Hsplice.
  { intros l. rewrite splice_nonneg by lia.
    change (Z.to_nat 0) with 0%nat. change (Z.to_nat 10) with 10%nat.
    by rewrite Nat.min_0_l, take_0. }
  assert (searchResults query st1 = page ++ drop 10 (searchResults query st)) as H1.
  { subst st1. by rewrite searchResults_search, Ho, Hl, !or_zero_Some, Hsplice. }
  assert (searchResults query st2 = page ++ drop 10 (searchResults query st)) as H2.
  { subst st2. rewrite searchResults_search, Ho, Hl, !or_zero_Some.
    subst st1. rewrite page_of_again. fold page. rewrite Hsplice, H1.
    by rewrite drop_app_length' by done. }
  split; [by rewrite H1, H2|]. split.
  - rewrite H2, length_app, length_drop. lia.
  - intros Hshort. rewrite H2, drop_ge, app_nil_r by done. done.
Qed.

(** The same ten results twice on a store that never searched "docs". *)
Lemma search_same_page_twice_witness :
  let found := map (λ n, hit n 1)
                 ["a0"; "a1"; "a2"; "a3"; "a4"; "a5"; "a6"; "a7"; "a8"; "a9"] in
  let st1 := (search "docs" (window 0 10) (found_page found) scenario_store).1 in
  let st2 := (search "docs" (window 0 10) (found_page found) st1).1 in
  length (searchResults "docs" st2) = 10%nat.
Proof.
  intros found st1 st2.
  destruct (search_same_page_twice "docs" (window 0 10) found scenario_store)
    as (_ & _ & Hlen); [reflexivity..|].
  apply Hlen. vm_compute. lia.
Defined.

(** C9. A [search] whose response has no [data] (or that resolves to nothing)
    raises the invariant violation before it changes anything: the store is
    the one the call found, with the request sent; the entity table, the
    instances and the cache entry of the query are what they were.  The same
    holds at resumption, whatever store the call resumes on. *)
Theorem search_without_data_changes_nothing (query : string) (options : PaginationParams)
    (st : Store) :
  let violation := Raised (InvariantViolation "Search response should be available") in
  let st' := (search query options (Resolved (Some {| res_data := None |})) st).1 in
  search query options (Resolved (Some {| res_data := None |})) st
    = (send (GET_search options query) st, violation)
  ∧ search query options (Resolved None) st
    = (send (GET_search options query) st, violation)
  ∧ (∀ st0, search_resume query options (Resolved (Some {| res_data := None |})) st0
            = (st0, violation))
  ∧ (∀ st0, search_resume query options (Resolved None) st0 = (st0, violation))
  ∧ data st' = data st
  ∧ objects st' = objects st
  ∧ values st' = values st
  ∧ searchCache st' = searchCache st
  ∧ searchCache st' !! query = searchCache st !! query.
Proof. by repeat split. Qed.

(** * Further properties of the store *)

(** ** What the operations do to the table *)

Lemma Map_get_NoDup k r m : NoDup m.*1 → (k, r) ∈ m → Map_get k m = Some r.
Proof.
  induction m as [|[k' r'] m IH]; simpl.
  - by intros _ ?%elem_of_nil.
  - intros [Hnotin Hnd]%NoDup_cons Hin. case_bool_decide as Hk.
    + apply elem_of_cons in Hin as [?|Hin]; [by simplify_eq|].
      exfalso. apply Hnotin. subst k'. apply list_elem_of_fmap. by exists (k, r).
    + apply elem_of_cons in Hin as [?|Hin]; [by simplify_eq|]. by apply IH.
Qed.

Lemma add_consistent item st : consistent st → consistent (add item st).1.
Proof.
  intros (Hwf & Hkeys & Hids).
  split; [by apply add_well_formed|].
  destruct Hwf as [Hvalid Hinj]. rewrite Forall_forall in Hvalid, Hids.
  unfold add. destruct (get (id item) st) as [existing|] eqn:Hget; simpl.
  - split; [done|]. apply Forall_forall. intros [k r] Hin. unfold deref. simpl.
    destruct (decide (r = existing)) as [->|Hne].
    + assert (k = id item) as ->.
      { eapply Map_get_inj; [exact Hinj| |exact Hget]. by apply Map_get_NoDup. }
      rewrite list_lookup_insert_eq; [done|].
      by specialize (Hvalid _ Hin).
    + rewrite list_lookup_insert_ne by done. by apply (Hids (k, r)).
  - split.
    + rewrite fmap_app. simpl. apply NoDup_app. split; [done|].
      split; [|apply NoDup_singleton].
      intros k [[k' r] [Heq Hin]]%list_elem_of_fmap Hk%list_elem_of_singleton.
      simpl in Heq. subst k k'.
      apply Map_get_elem_of in Hin as [r' Hr']. unfold get in Hget. congruence.
    + apply Forall_app. split.
      * apply Forall_forall. intros [k r] Hin. unfold deref. simpl.
        rewrite lookup_app_l by (by specialize (Hvalid _ Hin)).
        by apply (Hids (k, r)).
      * repeat constructor. unfold deref. simpl.
        by rewrite lookup_app_r, Nat.sub_diag.
Qed.

Lemma add_all_consistent items st : consistent st → consistent (add_all items st).
Proof.
  revert st. induction items as [|item items IH]; intros st Hc; [done|].
  rewrite add_all_cons. by apply IH, add_consistent.
Qed.

(** Invariants and lookups depend on the table and the instances only. *)
Lemma consistent_same_table st st' :
  data st' = data st → objects st' = objects st → consistent st → consistent st'.
Proof.
  unfold consistent, well_formed, deref. by intros -> ->.
Qed.

Lemma add_all_table_start items st st0 :
  data st0 = data st → objects st0 = objects st →
  data (add_all items st0) = data (add_all items st)
  ∧ objects (add_all items st0) = objects (add_all items st).
Proof.
  revert st st0. induction items as [|item items IH]; intros st st0 Hd Ho; [done|].
  rewrite !add_all_cons. apply IH; unfold add, get; rewrite Hd, ?Ho;
    by destruct (Map_get (id item) (data st)).
Qed.

Lemma fetchNamedPage_table name options answer st :
  ∃ items, table_after items st (fetchNamedPage name options answer st).1
           ∧ (∀ page, answer = found_page page → items = page).
Proof.
  unfold fetchNamedPage, fetchNamedPage_resume, found_page.
  destruct answer as [reason|[[[page|]]|]]; simpl.
  1,3,4: by exists [].
  exists page. split; [|by intros ? [= ->]].
  by apply add_all_table_start.
Qed.

Lemma fetchRecentlyViewed_table options answer st :
  ∃ items, table_after items st (fetchRecentlyViewed options answer st).1
           ∧ (∀ page, answer = found_page page → items = page).
Proof.
  unfold fetchRecentlyViewed, fetchRecentlyViewed_resume, fetchNamedPage_resume, found_page.
  destruct answer as [reason|[[[page|]]|]]; simpl.
  1,3,4: by exists [].
  exists page. split; [|by intros ? [= ->]].
  by apply add_all_table_start.
Qed.

Lemma search_table query options answer st :
  ∃ items, table_after items st (search query options answer st).1
           ∧ (∀ found, answer = found_page found → items = map document found).
Proof.
  unfold search, search_resume, found_page.
  destruct answer as [reason|[[[found|]]|]]; simpl.
  1,3,4: by exists [].
  exists (map document found). split; [|by intros ? [= ->]].
  by apply add_all_table_start.
Qed.

Lemma fetch_table ident options answer st :
  ∃ items, table_after items st (fetch ident options answer st).1.
Proof.
  unfold fetch. rewrite fetch_start_lookup. simpl.
  destruct (get ident st); [exists []; by destruct (negb _)|].
  destruct (getByUrl ident st); [exists []; by destruct (negb _)|].
  unfold fetch_resume.
  destruct answer as [reason|[[[item|]]|]]; simpl.
  1,3,4: exists []; by destruct (negb _).
  exists [item]. apply (add_all_table_start [item]); by destruct (negb _).
Qed.

Lemma table_after_consistent items st st' :
  table_after items st st' → consistent st → consistent st'.
Proof.
  intros [Hd Ho] Hc. apply (consistent_same_table (add_all items st)); [done..|].
  by apply add_all_consistent.
Qed.

Lemma table_after_get items st st' k r :
  table_after items st st' → get k st = Some r → get k st' = Some r.
Proof.
  intros [Hd _] Hk. unfold get. rewrite Hd. by apply get_add_all_Some.
Qed.

(** X1. The operations keep the table a proper map of live instances: if every
    reference of the table points to an allocated instance, no two keys share
    an instance, keys are unique and each instance carries its key as [id],
    then the same holds after [fetchNamedPage], [fetchRecentlyViewed],
    [search] and [fetch], whatever the transport answers. *)
Theorem operations_keep_table_consistent (st : Store) :
  consistent st →
  (∀ name options answer, consistent (fetchNamedPage name options answer st).1)
  ∧ (∀ options answer, consistent (fetchRecentlyViewed options answer st).1)
  ∧ (∀ query options answer, consistent (search query options answer st).1)
  ∧ (∀ ident options answer, consistent (fetch ident options answer st).1).
Proof.
  intros Hc. split; [|split; [|split]].
  - intros name options answer.
    destruct (fetchNamedPage_table name options answer st) as (items & Ht & _).
    by eapply table_after_consistent.
  - intros options answer.
    destruct (fetchRecentlyViewed_table options answer st) as (items & Ht & _).
    by eapply table_after_consistent.
  - intros query options answer.
    destruct (search_table query options answer st) as (items & Ht & _).
    by eapply table_after_consistent.
  - intros ident options answer.
    destruct (fetch_table ident options answer st) as (items & Ht).
    by eapply table_after_consistent.
Qed.

Lemma operations_keep_table_consistent_witness :
  consistent scenario_store
  ∧ consistent (search "q" (window 0 3) (found_page [hit "B" 2; hit "D" 1])
                  scenario_store).1.
Proof.
  assert (consistent scenario_store) as Hc by compute_done.
  split; [exact Hc|].
  by apply (operations_keep_table_consistent scenario_store Hc).
Defined.

(** X2. No operation evicts an entity or gives it another instance: a key that
    resolves to an instance before [fetchNamedPage], [fetchRecentlyViewed],
    [search] or [fetch] resolves to the same instance afterwards. *)
Theorem operations_keep_instances (st : Store) (k : string) (r : ref) :
  get k st = Some r →
  (∀ name options answer, get k (fetchNamedPage name options answer st).1 = Some r)
  ∧ (∀ options answer, get k (fetchRecentlyViewed options answer st).1 = Some r)
  ∧ (∀ query options answer, get k (search query options answer st).1 = Some r)
  ∧ (∀ ident options answer, get k (fetch ident options answer st).1 = Some r).
Proof.
  intros Hk. split; [|split; [|split]].
  - intros name options answer.
    destruct (fetchNamedPage_table name options answer st) as (items & Ht & _).
    by eapply table_after_get.
  - intros options answer.
    destruct (fetchRecentlyViewed_table options answer st) as (items & Ht & _).
    by eapply table_after_get.
  - intros query options answer.
    destruct (search_table query options answer st) as (items & Ht & _).
    by eapply table_after_get.
  - intros ident options answer.
    destruct (fetch_table ident options answer st) as (items & Ht).
    by eapply table_after_get.
Qed.

Lemma operations_keep_instances_witness :
  get "B" scenario_store = Some 1%nat
  ∧ get "B" (fetchNamedPage (Some "starred") None
               (found_page [mkDocument "B" "Y" 9 None; mkDocument "D" "Y" 3 None])
               scenario_store).1 = Some 1%nat.
Proof.
  split; [reflexivity|].
  by apply (operations_keep_instances scenario_store "B" 1%nat).
Defined.

(** ** Live references *)

Lemma NoDup_fmap_elem {A B} (f : A → B) (l : list A) x y :
  NoDup (f <$> l) → x ∈ l → y ∈ l → f x = f y → x = y.
Proof.
  induction l as [|z l IH]; simpl; [by intros _ ?%elem_of_nil|].
  intros [Hnotin Hnd]%NoDup_cons Hx Hy Heq.
  apply elem_of_cons in Hx as [->|Hx]; apply elem_of_cons in Hy as [->|Hy].
  - done.
  - exfalso. apply Hnotin. rewrite Heq. apply list_elem_of_fmap. by exists y.
  - exfalso. apply Hnotin. rewrite <- Heq. apply list_elem_of_fmap. by exists x.
  - by apply IH.
Qed.

(** Adding a list of entities with distinct ids leaves each of them in its
    instance. *)
Lemma add_all_holds d items st :
  well_formed st → NoDup (map id items) → d ∈ items →
  ∃ r, get (id d) (add_all items st) = Some r ∧ deref (add_all items st) r = Some d.
Proof.
  intros Hwf Hnd Hd.
  destruct (add_all_added d items st Hd) as (r & Hr & Hcontent).
  destruct (Hcontent Hwf) as (d' & Hd' & Hid & Hin').
  exists r. split; [done|].
  by rewrite (NoDup_fmap_elem id items d d').
Qed.

Lemma table_after_holds items st st' d :
  table_after items st st' → well_formed st → NoDup (map id items) → d ∈ items →
  ∃ r, get (id d) st' = Some r ∧ deref st' r = Some d.
Proof.
  intros [Hdata Hobj] Hwf Hnd Hd.
  destruct (add_all_holds d items st Hwf Hnd Hd) as (r & Hr & Hderef).
  exists r. unfold get, deref in *. by rewrite Hdata, Hobj.
Qed.

(** X3. Entities are updated in place, so a fetched page reaches the search
    cache: when a page (with distinct ids) brings a document whose id is in
    the table, the instance under that id holds the fetched document
    afterwards, and a cached search result that refers to this instance is
    still cached, at its index, and now refers to the fetched fields. *)
Theorem fetched_page_updates_cached_results (name : option string)
    (options : option PaginationParams) (page : list Document) (st : Store)
    (d : Document) (r : ref) :
  well_formed st → NoDup (map id page) → d ∈ page → get (id d) st = Some r →
  let st' := (fetchNamedPage name options (found_page page) st).1 in
  get (id d) st' = Some r
  ∧ deref st' r = Some d
  ∧ ∀ query i cached,
      searchResults query st !! i = Some cached → document cached = r →
      searchResults query st' !! i = Some cached
      ∧ deref st' (document cached) = Some d.
Proof.
  intros Hwf Hnd Hd Hr st'.
  destruct (fetchNamedPage_table name options (found_page page) st) as (items & Ht & Hitems).
  rewrite (Hitems page eq_refl) in Ht. fold st' in Ht.
  assert (get (id d) st' = Some r) as Hr' by (by eapply table_after_get).
  destruct (table_after_holds page st st' d Ht Hwf Hnd Hd) as (r' & Hget & Hderef).
  assert (r' = r) as -> by congruence.
  split; [done|]. split; [done|].
  intros query i cached Hcached ->. split; [|done].
  subst st'. unfold fetchNamedPage, fetchNamedPage_resume, found_page, searchResults. simpl.
  by destruct (add_all_frame page (fetchNamedPage_start name options st))
    as (_ & _ & _ & -> & _).
Qed.

(** B is cached under "q"; a "list" page then brings B with a new [updatedAt]. *)
Lemma fetched_page_updates_cached_results_witness :
  let newB := mkDocument "B" "X" 8 (Some 5) in
  let st' := (fetchNamedPage (Some "list") None (found_page [newB]) searched_store).1 in
  ∃ cached, searchResults "q" st' !! 1%nat = Some cached
            ∧ deref st' (document cached) = Some newB.
Proof.
  intros newB st'.
  destruct (fetched_page_updates_cached_results (Some "list") None [newB]
              searched_store newB 1%nat) as (_ & _ & Hcache);
    [compute_done|compute_done|by left|reflexivity|].
  exists {| ranking := 2; context := "... B ..."; document := 1%nat |}.
  by apply Hcache.
Defined.

(** X4. [search] caches references to what it found: when the results found
    have distinct documents, the cached result at each position of the stored
    page has the ranking and context of the result found at that position,
    and its document reference is the instance that holds, after the call,
    the document the API sent. *)
Theorem search_caches_live_documents (query : string) (options : PaginationParams)
    (found : list (SearchResult Document)) (st : Store) :
  well_formed st → NoDup (map id (map document found)) →
  let st' := (search query options (found_page found) st).1 in
  let page := page_of (search_start query options st) found in
  ∀ j result, found !! j = Some result →
    ∃ cached, page !! j = Some cached
              ∧ ranking cached = ranking result
              ∧ context cached = context result
              ∧ get (id (document result)) st' = Some (document cached)
              ∧ deref st' (document cached) = Some (document result).
Proof.
  intros Hwf Hnd st' page j result Hj.
  pose proof (page_of_refers_to (search_start query options st) found) as Hall.
  fold page in Hall.
  destruct (Forall2_lookup_l _ _ _ _ _ Hall Hj) as (cached & Hcached & Hrank & Hctx & Hget).
  destruct (search_table query options (found_page found) st) as (items & Ht & Hitems).
  rewrite (Hitems found eq_refl) in Ht. fold st' in Ht.
  assert (get (id (document result)) st' = Some (document cached)) as Hget'.
  { destruct Ht as [Hdata _]. unfold get in *. rewrite Hdata.
    by destruct (add_all_table_start (map document found) st
                   (search_start query options st) eq_refl eq_refl) as [<- _]. }
  destruct (table_after_holds (map document found) st st' (document result) Ht Hwf Hnd)
    as (r & Hr & Hderef).
  { apply list_elem_of_fmap. exists result. split; [done|].
    by eapply list_elem_of_lookup_2. }
  exists cached. repeat split; try done. congruence.
Qed.

Lemma search_caches_live_documents_witness :
  let found := [hit "B" 9; hit "D" 4] in
  let st' := (search "q" (window 0 2) (found_page found) scenario_store).1 in
  ∃ cached, searchResults "q" st' !! 0%nat = Some cached
            ∧ deref st' (document cached) = Some (document (hit "B" 9)).
Proof.
  intros found st'.
  destruct (search_caches_live_documents "q" (window 0 2) found scenario_store)
    with (j := 0%nat) (result := hit "B" 9)
    as (cached & Hpage & _ & _ & _ & Hderef);
    [compute_done|compute_done|reflexivity|].
  exists cached. split; [|exact Hderef].
  vm_compute in Hpage. injection Hpage as <-. reflexivity.
Defined.

(** X5. A document fetched from the transport is answered from the table from
    then on: after a [fetch] that had to ask and got a document, [fetch] of
    that document's id returns the same instance and sends no request,
    whatever its options. *)
Theorem fetch_again_is_cached (ident : string) (options options' : FetchOptions)
    (item : Document) (answer' : response Document) (st : Store) :
  get ident st = None → getByUrl ident st = None →
  let st1 := (fetch ident options (found_document item) st).1 in
  ∃ r, (fetch ident options (found_document item) st).2 = Returned (Some r)
       ∧ (fetch (id item) options' answer' st1).2 = Returned (Some r)
       ∧ requests (fetch (id item) options' answer' st1).1 = requests st1.
Proof.
  intros Hget Hurl st1.
  assert (∃ r, (fetch ident options (found_document item) st).2 = Returned (Some r)
               ∧ get (id item) st1 = Some r) as (r & Hout & Hr).
  { subst st1. unfold fetch, found_document. rewrite fetch_start_lookup, Hget, Hurl. simpl.
    set (st0 := send _ _). exists (add item st0).2.
    split; [f_equal|]; apply (get_add_same item st0). }
  exists r. split; [done|].
  assert (fetch (id item) options' answer' st1 =
            (set_isFetching false
               (if negb (truthy (prefetch options')) then set_isFetching true st1 else st1),
             Returned (Some r))) as ->.
  { unfold fetch. by rewrite fetch_start_lookup, Hr. }
  split; [done|]. simpl. by destruct (negb _).
Qed.

Lemma fetch_again_is_cached_witness :
  let item := mkDocument "D" "Y" 3 None in
  let st1 := (fetch "D" no_options (found_document item) scenario_store).1 in
  (fetch "D" no_options (Rejected "offline") st1).2 = Returned (Some 3%nat)
  ∧ length (requests st1) = 1%nat
  ∧ length (requests (fetch "D" no_options (Rejected "offline") st1).1) = 1%nat.
Proof.
  intros item st1.
  destruct (fetch_again_is_cached "D" no_options no_options item (Rejected "offline")
              scenario_store) as (r & Hfirst & Hagain & Hreq); [reflexivity..|].
  vm_compute in Hfirst. injection Hfirst as <-.
  split; [exact Hagain|]. split; [reflexivity|]. exact (f_equal length Hreq).
Defined.

(** ** The recently-viewed list, again *)

Lemma baseUniq_absorb result array :
  (∀ x, x ∈ array → x ∈ result) → baseUniq result array = result.
Proof.
  induction array as [|x array IH]; intros Hall; simpl; [done|].
  rewrite bool_decide_eq_true_2 by (apply Hall; by left).
  apply IH. intros y Hy. apply Hall. by right.
Qed.

(** X6. Viewing the same documents again changes nothing: two
    [fetchRecentlyViewed] calls in a row answered with the same page leave the
    list of ids after the second call equal to the list after the first. *)
Theorem fetchRecentlyViewed_same_page_twice (options1 options2 : option PaginationParams)
    (page : list Document) (st : Store) :
  let st1 := (fetchRecentlyViewed options1 (found_page page) st).1 in
  let st2 := (fetchRecentlyViewed options2 (found_page page) st1).1 in
  recentlyViewedIds st2 = recentlyViewedIds st1
  ∧ ∀ d, d ∈ page → id d ∈ recentlyViewedIds st1.
Proof.
  intros st1 st2.
  assert (recentlyViewedIds st1 = uniq (recentlyViewedIds st ++ map id page)) as H1
    by apply fetchRecentlyViewed_ids.
  assert (∀ x, x ∈ map id page → x ∈ recentlyViewedIds st1) as Hin.
  { intros x Hx. rewrite H1. apply elem_of_baseUniq. right.
    apply elem_of_app. by right. }
  split.
  - subst st2. unfold found_page. rewrite fetchRecentlyViewed_ids.
    fold (found_page page). fold st1.
    rewrite uniq_app_NoDup by (rewrite H1; apply uniq_NoDup).
    by apply baseUniq_absorb.
  - intros d Hd. apply Hin, list_elem_of_fmap. by exists d.
Qed.

(** X7. A named-page fetch that fails, by rejection or by a response without
    [data], raises and leaves the instances, the table, [isLoaded], the
    recently-viewed ids and the search cache as they were;
    [fetchRecentlyViewed] does not touch its id list either. *)
Theorem failed_page_fetch_changes_nothing (name : option string)
    (options : option PaginationParams) (answer : response (list Document)) (st : Store) :
  (∀ page, answer ≠ found_page page) →
  let unchanged (st' : Store) :=
    objects st' = objects st ∧ data st' = data st ∧ isLoaded st' = isLoaded st
    ∧ recentlyViewedIds st' = recentlyViewedIds st
    ∧ searchCache st' = searchCache st in
  unchanged (fetchNamedPage name options answer st).1
  ∧ unchanged (fetchRecentlyViewed options answer st).1
  ∧ (∃ e, (fetchNamedPage name options answer st).2 = Raised e)
  ∧ (∃ e, (fetchRecentlyViewed options answer st).2 = Raised e
          ∧ (fetchNamedPage (Some "viewed") options answer st).2 = Raised e).
Proof.
  intros Hfail unchanged. subst unchanged.
  unfold fetchRecentlyViewed, fetchRecentlyViewed_resume, fetchNamedPage,
    fetchNamedPage_resume.
  destruct answer as [reason|[[[page|]]|]]; simpl.
  2: by destruct (Hfail page).
  all: repeat split; by eexists.
Qed.

Lemma failed_page_fetch_changes_nothing_witness :
  recentlyViewedIds
    (fetchRecentlyViewed None (Resolved (Some {| res_data := None |})) scenario_store).1
  = []
  ∧ data (fetchNamedPage (Some "drafts") None (Resolved (Some {| res_data := None |}))
            scenario_store).1
    = data scenario_store.
Proof.
  destruct (failed_page_fetch_changes_nothing (Some "drafts") None
              (Resolved (Some {| res_data := None |})) scenario_store)
    as ((_ & Hdata & _) & (_ & _ & _ & Hids & _) & _); [done|].
  split; [exact Hids|exact Hdata].
Defined.

(** ** Search and the flags *)

(** X8. [search] is not tracked by the store's flags and does not count as a
    view: whatever the transport answers, [isFetching], [isLoaded] and the
    recently-viewed ids are what they were, and exactly one search request
    has been sent.  A rejected request leaves the table, the instances and
    the whole search cache untouched and raises the transport's failure. *)
Theorem search_leaves_flags_alone (query : string) (options : PaginationParams)
    (answer : response (list (SearchResult Document))) (st : Store) :
  let st' := (search query options answer st).1 in
  isFetching st' = isFetching st
  ∧ isLoaded st' = isLoaded st
  ∧ recentlyViewedIds st' = recentlyViewedIds st
  ∧ requests st' = requests st ++ [GET_search options query]
  ∧ ∀ reason, answer = Rejected reason →
      search query options answer st
        = (send (GET_search options query) st, Raised (TransportFailure reason)).
Proof.
  unfold search, search_resume.
  destruct answer as [reason|[[[found|]]|]]; simpl.
  1,3,4: repeat split; try done; by intros ? [= ->].
  destruct (add_all_frame (map document found) (search_start query options st))
    as (-> & -> & -> & _ & ->).
  by repeat split.
Qed.

(** ** Lookup by URL *)

Lemma length_string_app (s t : string) :
  String.length (s +:+ t) = (String.length s + String.length t)%nat.
Proof. induction s as [|c s IH]; simpl; [done|]. by rewrite IH. Qed.

Lemma substring_all (t : string) : String.substring 0 (String.length t) t = t.
Proof. induction t as [|c t IH]; simpl; [done|]. by rewrite IH. Qed.

Lemma substring_app (p t : string) :
  String.substring (String.length p) (String.length t) (p +:+ t) = t.
Proof. induction p as [|c p IH]; simpl; [apply substring_all|done]. Qed.

Lemma substring_split (s : string) (n m : nat) :
  (n + m)%nat = String.length s →
  s = String.substring 0 n s +:+ String.substring n m s.
Proof.
  revert n. induction s as [|c s IH]; intros n Hlen; simpl in Hlen.
  - assert (n = 0%nat) as -> by lia. assert (m = 0%nat) as -> by lia. done.
  - destruct n as [|n]; simpl.
    + simpl in Hlen. subst m. simpl. by rewrite substring_all.
    + change (String c s = String c (String.substring 0 n s +:+ String.substring n m s)).
      f_equal. apply IH. lia.
Qed.

Lemma endsWith_app (p t : string) : endsWith (p +:+ t) t = true.
Proof.
  unfold endsWith. rewrite length_string_app.
  rewrite (proj2 (Nat.leb_le _ _)) by lia.
  replace (String.length p + String.length t - String.length t)%nat
    with (String.length p) by lia.
  rewrite substring_app. apply String.eqb_refl.
Qed.

(** X9. [endsWith], written with [substring] as JavaScript defines it, is the
    suffix test: [s] ends with [t] exactly when [s] is some string followed by
    [t].  So every string ends with the empty string. *)
Theorem endsWith_suffix (s t : string) :
  (endsWith s t = true ↔ ∃ p, s = p +:+ t) ∧ endsWith s "" = true.
Proof.
  split; [split|].
  - unfold endsWith.
    destruct (Nat.leb_spec (String.length t) (String.length s)) as [Hle|]; [|done].
    intros Heq%String.eqb_eq.
    exists (String.substring 0 (String.length s - String.length t) s).
    etrans; [apply (substring_split s (String.length s - String.length t)
                      (String.length t)); lia|].
    by rewrite Heq.
  - intros [p ->]. apply endsWith_app.
  - assert (s = s +:+ "") as ->; [|apply endsWith_app].
    clear. induction s as [|c s IH]; [done|].
    change (String c s = String c (s +:+ "")). by rewrite <- IH.
Qed.

(** X10. A document in the table answers for every string that ends with its
    [urlId]: [fetch] of such a string completes without a request and returns
    a cached instance, whatever the options and whether or not the string is
    a key.  A document whose [urlId] is empty thus answers for every id. *)
Theorem fetch_by_url_alias (st : Store) (r : ref) (d : Document) (prefix : string)
    (options : FetchOptions) (answer : response Document) :
  r ∈ value_refs st → deref st r = Some d →
  let ident := prefix +:+ urlId d in
  ∃ r', (fetch ident options answer st).2 = Returned (Some r')
        ∧ requests (fetch ident options answer st).1 = requests st
        ∧ r' ∈ value_refs st.
Proof.
  intros Hr Hd ident.
  assert (endsWith ident (urlId d) = true) as Hends.
  { apply endsWith_app. }
  unfold fetch. rewrite fetch_start_lookup. simpl.
  destruct (get ident st) as [hit|] eqn:Hget.
  { exists hit. split; [done|]. split; [by destruct (negb _)|].
    apply Map_get_Some in Hget. apply list_elem_of_fmap. by exists (ident, hit). }
  destruct (getByUrl ident st) as [hit|] eqn:Hurl.
  { exists hit. split; [done|]. split; [by destruct (negb _)|].
    by destruct (getByUrl_Some _ _ _ Hurl). }
  by rewrite (getByUrl_None _ _ _ _ Hurl Hr Hd) in Hends.
Qed.

Lemma fetch_by_url_alias_witness :
  ∃ r', (fetch "/doc/my-title-u-C" no_options (Rejected "offline") scenario_store).2
          = Returned (Some r')
        ∧ requests (fetch "/doc/my-title-u-C" no_options (Rejected "offline")
                      scenario_store).1 = [].
Proof.
  destruct (fetch_by_url_alias scenario_store 2%nat docC "/doc/my-title-" no_options
              (Rejected "offline")) as (r' & Hout & Hreq & _);
    [compute_done|reflexivity|].
  by exists r'.
Defined.

(** ** More derived views *)

Section OrderByAscFacts.
Context {A : Type} (key : A → Z).

Lemma insert_asc_Permutation x l : insert_asc key x l ≡ₚ x :: l.
Proof.
  induction l as [|y l IH]; simpl; [done|].
  destruct (key y <? key x); [|done].
  rewrite IH. apply Permutation_swap.
Qed.

Lemma orderBy_asc_Permutation l : orderBy_asc key l ≡ₚ l.
Proof.
  induction l as [|x l IH]; simpl; [done|].
  by rewrite insert_asc_Permutation, IH.
Qed.

Lemma insert_asc_ascending x l : ascending key l → ascending key (insert_asc key x l).
Proof.
  induction 1 as [|y l Hl IH Hy]; simpl.
  - repeat constructor.
  - destruct (Z.ltb_spec (key y) (key x)) as [Hlt|Hge].
    + constructor; [done|].
      rewrite insert_asc_Permutation. constructor; [lia|done].
    + constructor; [by constructor|].
      constructor; [done|].
      eapply Forall_impl; [exact Hy|]. simpl. intros; lia.
Qed.

Lemma orderBy_asc_ascending l : ascending key (orderBy_asc key l).
Proof.
  induction l; simpl; [constructor|by apply insert_asc_ascending].
Qed.

(** Equal keys keep the input order, in both directions. *)
Lemma orderBy_equal_keys l :
  (∀ x y, x ∈ l → y ∈ l → key x = key y) →
  orderBy_desc key l = l ∧ orderBy_asc key l = l.
Proof.
  induction l as [|x l IH]; intros Heq; [done|].
  destruct IH as [IHd IHa].
  { intros y z Hy Hz. apply Heq; by right. }
  simpl. rewrite IHd, IHa. destruct l as [|y l]; [done|]. simpl.
  assert (key x = key y) as -> by (apply Heq; [by left|by right; left]).
  by rewrite Z.ltb_irrefl.
Qed.

(** With distinct keys the ascending order is the descending one reversed. *)
Lemma orderBy_asc_reverse l :
  (∀ x y, x ∈ l → y ∈ l → key x = key y → x = y) →
  orderBy_asc key l = reverse (orderBy_desc key l).
Proof.
  intros Hdistinct.
  apply (StronglySorted_unique_strong (λ a b, key a ≤ key b)).
  - intros x y Hx Hy Hxy Hyx. apply Hdistinct; [| |lia].
    + by rewrite orderBy_asc_Permutation in Hx.
    + by rewrite reverse_Permutation, orderBy_desc_Permutation in Hy.
  - apply orderBy_asc_ascending.
  - apply Sorted_StronglySorted; [intros ? ? ?; lia|].
    apply (Sorted_reverse (λ a b, key b ≤ key a)).
    apply StronglySorted_Sorted, orderBy_desc_descending.
  - by rewrite orderBy_asc_Permutation, reverse_Permutation, orderBy_desc_Permutation.
Qed.
End OrderByAscFacts.

Lemma length_omap_le {A B} (f : A → option B) (l : list A) :
  (length (omap f l) ≤ length l)%nat.
Proof.
  induction l as [|x l IH]; [done|].
  change (omap f (x :: l)) with (match f x with Some y => y :: omap f l | None => omap f l end).
  destruct (f x); simpl; lia.
Qed.

Lemma elem_of_recentlyViewed st d :
  d ∈ recentlyViewed st ↔
  ∃ ident r, ident ∈ recentlyViewedIds st ∧ get ident st = Some r ∧ deref st r = Some d.
Proof.
  unfold recentlyViewed. rewrite orderBy_desc_Permutation, list_elem_of_omap.
  split.
  - intros (ident & Hin & Hres). destruct (get ident st) as [r|] eqn:Hr; [|done].
    by exists ident, r.
  - intros (ident & r & Hin & Hr & Hd). exists ident. by rewrite Hr.
Qed.

(** X11. [recentlyViewed] resolves the recently-viewed ids through the table:
    it holds exactly the documents of the instances that ids of the list
    resolve to, in descending [updatedAt] order; an id that is no key of the
    table contributes nothing, so the view is never longer than the list and
    is empty when no id resolves. *)
Theorem recentlyViewed_resolves_ids (st : Store) :
  (∀ d, d ∈ recentlyViewed st ↔
        ∃ ident r, ident ∈ recentlyViewedIds st ∧ get ident st = Some r
                   ∧ deref st r = Some d)
  ∧ descending updatedAt (recentlyViewed st)
  ∧ (length (recentlyViewed st) ≤ length (recentlyViewedIds st))%nat
  ∧ ((∀ ident, ident ∈ recentlyViewedIds st → get ident st = None) →
     recentlyViewed st = []).
Proof.
  split; [apply elem_of_recentlyViewed|].
  split; [apply orderBy_desc_descending|]. split.
  - unfold recentlyViewed. rewrite orderBy_desc_Permutation. apply length_omap_le.
  - intros Hnone. destruct (recentlyViewed st) as [|d l] eqn:Hview; [done|].
    assert (d ∈ recentlyViewed st) as Hd by (rewrite Hview; by left).
    apply elem_of_recentlyViewed in Hd as (ident & r & Hin & Hr & _).
    by rewrite (Hnone ident Hin) in Hr.
Qed.

(** X12. What [fetchRecentlyViewed] brings shows in [recentlyViewed]: after a
    call answered with a page of documents with distinct ids, every document
    of the page is in the view, with the fields the page gave it. *)
Theorem fetchRecentlyViewed_shows_in_view (options : option PaginationParams)
    (page : list Document) (st : Store) (d : Document) :
  well_formed st → NoDup (map id page) → d ∈ page →
  d ∈ recentlyViewed (fetchRecentlyViewed options (found_page page) st).1.
Proof.
  intros Hwf Hnd Hd. set (st' := (fetchRecentlyViewed _ _ _).1).
  destruct (fetchRecentlyViewed_table options (found_page page) st) as (items & Ht & Hitems).
  rewrite (Hitems page eq_refl) in Ht. fold st' in Ht.
  destruct (table_after_holds page st st' d Ht Hwf Hnd Hd) as (r & Hr & Hderef).
  apply elem_of_recentlyViewed. exists (id d), r. split; [|done].
  subst st'. unfold found_page. rewrite fetchRecentlyViewed_ids.
  apply elem_of_baseUniq. right. apply elem_of_app. right.
  apply list_elem_of_fmap. by exists d.
Qed.

Lemma fetchRecentlyViewed_shows_in_view_witness :
  let newB := mkDocument "B" "X" 8 (Some 5) in
  newB ∈ recentlyViewed
           (fetchRecentlyViewed None
              (found_page [newB; mkDocument "D" "Y" 3 None]) scenario_store).1.
Proof.
  intros newB.
  apply (fetchRecentlyViewed_shows_in_view None _ scenario_store newB);
    [compute_done|compute_done|by left].
Defined.

(** X13. The listings are restrictions of one another: [recentlyUpdated] is
    the whole table in descending [updatedAt] order;
    [recentlyUpdatedInCollection] is [recentlyUpdated] restricted to the
    published documents of the collection, in the same order;
    [pinnedInCollection] is that listing restricted to the pinned documents,
    so it holds exactly the pinned, published documents of the collection, in
    descending [updatedAt] order, and never a draft. *)
Theorem listings_restrict_recentlyUpdated (st : Store) (c : string) :
  let in_collection d := collectionId d = c ∧ present (publishedAt d) = true in
  recentlyUpdated st ≡ₚ values st
  ∧ descending updatedAt (recentlyUpdated st)
  ∧ recentlyUpdatedInCollection c st = filter in_collection (recentlyUpdated st)
  ∧ pinnedInCollection c st
    = filter (λ d, pinned d = true ∧ in_collection d) (recentlyUpdated st)
  ∧ pinnedInCollection c st `sublist_of` recentlyUpdatedInCollection c st
  ∧ descending updatedAt (pinnedInCollection c st)
  ∧ (∀ d, d ∈ pinnedInCollection c st ↔
          d ∈ values st ∧ collectionId d = c ∧ is_Some (publishedAt d)
          ∧ pinned d = true).
Proof.
  intros in_collection.
  assert (recentlyUpdatedInCollection c st = filter in_collection (recentlyUpdated st))
    as Hrestrict.
  { unfold recentlyUpdated. by rewrite filter_orderBy_desc. }
  assert (pinnedInCollection c st
          = filter (λ d, pinned d = true ∧ in_collection d) (recentlyUpdated st)) as Hpinned.
  { unfold pinnedInCollection. rewrite Hrestrict. apply list_filter_filter. }
  split; [apply orderBy_desc_Permutation|].
  split; [apply orderBy_desc_descending|].
  split; [exact Hrestrict|]. split; [exact Hpinned|].
  split; [apply sublist_filter|]. split.
  - rewrite Hpinned. unfold recentlyUpdated. rewrite filter_orderBy_desc.
    apply orderBy_desc_descending.
  - intros d. rewrite Hpinned, list_elem_of_filter. unfold recentlyUpdated.
    rewrite orderBy_desc_Permutation. subst in_collection. simpl.
    rewrite present_true. tauto.
Qed.

(** X14. [leastRecentlyUpdatedInCollection] holds the published documents of
    the collection in ascending [updatedAt] order.  When these documents have
    distinct [updatedAt], it is [recentlyUpdatedInCollection] reversed; when
    they all have the same, both listings are in table order, not mirrored. *)
Theorem leastRecentlyUpdated_mirrors_recentlyUpdated (st : Store) (c : string) :
  leastRecentlyUpdatedInCollection c st ≡ₚ publishedInCollection c st
  ∧ ascending updatedAt (leastRecentlyUpdatedInCollection c st)
  ∧ ((∀ x y, x ∈ publishedInCollection c st → y ∈ publishedInCollection c st →
             updatedAt x = updatedAt y → x = y) →
     leastRecentlyUpdatedInCollection c st = reverse (recentlyUpdatedInCollection c st))
  ∧ ((∀ x y, x ∈ publishedInCollection c st → y ∈ publishedInCollection c st →
             updatedAt x = updatedAt y) →
     leastRecentlyUpdatedInCollection c st = publishedInCollection c st
     ∧ recentlyUpdatedInCollection c st = publishedInCollection c st).
Proof.
  split; [apply orderBy_asc_Permutation|].
  split; [apply orderBy_asc_ascending|]. split.
  - intros Hdistinct. by apply orderBy_asc_reverse.
  - intros Hsame.
    destruct (orderBy_equal_keys updatedAt (publishedInCollection c st) Hsame) as [Hd Ha].
    by split.
Qed.

Lemma leastRecentlyUpdated_mirrors_recentlyUpdated_witness :
  leastRecentlyUpdatedInCollection "X" scenario_store = [docA; docB]
  ∧ recentlyUpdatedInCollection "X" scenario_store = [docB; docA].
Proof.
  destruct (leastRecentlyUpdated_mirrors_recentlyUpdated scenario_store "X")
    as (_ & _ & Hmirror & _).
  split; [|reflexivity]. rewrite Hmirror; [reflexivity|].
  intros x y Hx Hy. vm_compute in Hx, Hy.
  repeat (apply elem_of_cons in Hx as [->|Hx]); [..|by apply elem_of_nil in Hx];
    repeat (apply elem_of_cons in Hy as [->|Hy]); try (by apply elem_of_nil in Hy);
    vm_compute; intros; done.
Defined.

(** ** Wrappers of [fetchNamedPage] *)

(** How an answer is merged does not depend on what was asked. *)
Lemma fetchNamedPage_same_merge name options name' options' answer st :
  let st1 := (fetchNamedPage name options answer st).1 in
  let st2 := (fetchNamedPage name' options' answer st).1 in
  (fetchNamedPage name options answer st).2 = (fetchNamedPage name' options' answer st).2
  ∧ objects st1 = objects st2 ∧ data st1 = data st2
  ∧ isFetching st1 = isFetching st2 ∧ isLoaded st1 = isLoaded st2
  ∧ recentlyViewedIds st1 = recentlyViewedIds st2
  ∧ searchCache st1 = searchCache st2.
Proof.
  unfold fetchNamedPage, fetchNamedPage_resume.
  destruct answer as [reason|[[[page|]]|]]; simpl; try done.
  destruct (add_all_table_start page (fetchNamedPage_start name options st)
              (fetchNamedPage_start name' options' st) eq_refl eq_refl) as [-> ->].
  destruct (add_all_frame page (fetchNamedPage_start name options st))
    as (_ & _ & -> & -> & _).
  destruct (add_all_frame page (fetchNamedPage_start name' options' st))
    as (_ & _ & -> & -> & _).
  done.
Qed.

(** X15. The sorted fetches ask the "list" endpoint with their defaults filled
    in: [fetchAlphabetical] sends [sort] "title" and [direction] "ASC",
    [fetchLeastRecentlyUpdated] "updatedAt" and "ASC", [fetchRecentlyPublished]
    "publishedAt" and "DESC", each replaced by the caller's value when the
    caller gives one, with [limit] and [offset] passed on as given.  The
    answer is merged exactly as by [fetchRecentlyUpdated]: same outcome, same
    table and instances. *)
Theorem sorted_fetches_send_defaults (options : option PaginationParams)
    (answer : response (list Document)) (st : Store) :
  let sent sort0 direction0 :=
    POST "/documents.list"
      (Some {| limit := options ≫= limit; offset := options ≫= offset;
               sort := Some (default sort0 (options ≫= sort));
               direction := Some (default direction0 (options ≫= direction)) |}) in
  let same (call : Store * outcome (list Document)) :=
    call.2 = (fetchRecentlyUpdated options answer st).2
    ∧ data call.1 = data (fetchRecentlyUpdated options answer st).1
    ∧ objects call.1 = objects (fetchRecentlyUpdated options answer st).1 in
  (requests (fetchAlphabetical options answer st).1
     = requests st ++ [sent "title" "ASC"]
   ∧ same (fetchAlphabetical options answer st))
  ∧ (requests (fetchLeastRecentlyUpdated options answer st).1
       = requests st ++ [sent "updatedAt" "ASC"]
     ∧ same (fetchLeastRecentlyUpdated options answer st))
  ∧ (requests (fetchRecentlyPublished options answer st).1
       = requests st ++ [sent "publishedAt" "DESC"]
     ∧ same (fetchRecentlyPublished options answer st)).
Proof.
  intros sent same.
  assert (∀ sort0 direction0,
            requests (fetchNamedPage (Some "list")
                        (Some (with_defaults sort0 direction0 options)) answer st).1
              = requests st ++ [sent sort0 direction0]
            ∧ same (fetchNamedPage (Some "list")
                      (Some (with_defaults sort0 direction0 options)) answer st)) as Hall.
  { intros sort0 direction0. split.
    - subst sent. unfold fetchNamedPage, fetchNamedPage_resume.
      destruct answer as [reason|[[[page|]]|]]; simpl.
      2: destruct (add_all_frame page
                     (fetchNamedPage_start (Some "list")
                        (Some (with_defaults sort0 direction0 options)) st))
           as (_ & _ & _ & _ & ->); simpl.
      all: destruct options as [[? ? [?|] [?|]]|]; done.
    - subst same. unfold fetchRecentlyUpdated.
      destruct (fetchNamedPage_same_merge (Some "list")
                  (Some (with_defaults sort0 direction0 options))
                  (Some "list") options answer st) as (? & ? & ? & _).
      done. }
  split; [apply Hall|]. split; apply Hall.
Qed.

(** ** Fetched documents and the views *)

Lemma elem_of_values st d :
  d ∈ values st ↔ ∃ k r, (k, r) ∈ data st ∧ deref st r = Some d.
Proof.
  unfold values, value_refs. rewrite list_elem_of_omap. split.
  - intros (r & [[k r'] [Heq Hin]]%list_elem_of_fmap & Hd). simpl in Heq. subst r'.
    by exists k, r.
  - intros (k & r & Hin & Hd). exists r. split; [|done].
    apply list_elem_of_fmap. by exists (k, r).
Qed.

(** X16. A fetched page shows in the views at once: after [fetchNamedPage]
    answered with a page of documents with distinct ids, every document of
    the page is among the table's values with the fields the page gave it, so
    it is in [drafts] when it has no [publishedAt], in
    [recentlyUpdatedInCollection] of its collection when it has one, and in
    [pinnedInCollection] too when it is pinned. *)
Theorem fetched_page_shows_in_views (name : option string)
    (options : option PaginationParams) (page : list Document) (st : Store)
    (d : Document) :
  well_formed st → NoDup (map id page) → d ∈ page →
  let st' := (fetchNamedPage name options (found_page page) st).1 in
  d ∈ values st'
  ∧ d ∈ recentlyUpdated st'
  ∧ (publishedAt d = None → d ∈ drafts st')
  ∧ (is_Some (publishedAt d) →
     d ∈ recentlyUpdatedInCollection (collectionId d) st'
     ∧ d ∈ leastRecentlyUpdatedInCollection (collectionId d) st'
     ∧ (pinned d = true → d ∈ pinnedInCollection (collectionId d) st')).
Proof.
  intros Hwf Hnd Hd st'.
  destruct (fetchNamedPage_table name options (found_page page) st) as (items & Ht & Hitems).
  rewrite (Hitems page eq_refl) in Ht. fold st' in Ht.
  destruct (table_after_holds page st st' d Ht Hwf Hnd Hd) as (r & Hr & Hderef).
  assert (d ∈ values st') as Hvalues.
  { apply elem_of_values. exists (id d), r. split; [|done]. by apply Map_get_Some. }
  split; [done|]. split.
  { unfold recentlyUpdated. by rewrite orderBy_desc_Permutation. }
  split.
  { intros Hdraft. rewrite drafts_sorted_filter, orderBy_desc_Permutation.
    by apply list_elem_of_filter. }
  intros Hpublished.
  assert (d ∈ publishedInCollection (collectionId d) st') as Hin.
  { unfold publishedInCollection. apply list_elem_of_filter.
    by rewrite present_true. }
  split; [|split].
  - unfold recentlyUpdatedInCollection. by rewrite orderBy_desc_Permutation.
  - unfold leastRecentlyUpdatedInCollection. by rewrite orderBy_asc_Permutation.
  - intros Hpinned. unfold pinnedInCollection, recentlyUpdatedInCollection.
    apply list_elem_of_filter. split; [done|]. by rewrite orderBy_desc_Permutation.
Qed.

(** C gets published and pinned by a "pinned" page. *)
Lemma fetched_page_shows_in_views_witness :
  let newC :=
    {| id := "C"; urlId := "u-C"; title := "C"; collectionId := "X"; pinned := true;
       starred := false; updatedAt := 7; publishedAt := Some 7 |} in
  newC ∈ pinnedInCollection "X"
           (fetchNamedPage (Some "pinned") None (found_page [newC]) scenario_store).1.
Proof.
  intros newC.
  destruct (fetched_page_shows_in_views (Some "pinned") None [newC] scenario_store newC)
    as (_ & _ & _ & Hpublished); [compute_done|compute_done|by left|].
  destruct Hpublished as (_ & _ & Hpinned); [by eexists|].
  by apply Hpinned.
Defined.

(** X17. One document per id: in a consistent table the values carry
    pairwise distinct ids, one value per key, so no listing shows two
    documents with the same id; and the document found under a key has that
    key as its id. *)
Theorem values_have_distinct_ids (st : Store) :
  consistent st →
  NoDup (map id (values st))
  ∧ map id (values st) = (data st).*1
  ∧ (∀ c, NoDup (map id (recentlyUpdatedInCollection c st)))
  ∧ NoDup (map id (recentlyUpdated st))
  ∧ NoDup (map id (drafts st))
  ∧ (∀ k r d, get k st = Some r → deref st r = Some d → id d = k).
Proof.
  intros (_ & Hkeys & Hids).
  assert (map id (values st) = (data st).*1) as Hmap.
  { unfold values, value_refs. clear Hkeys.
    induction (data st) as [|[k r] m IH]; [done|].
    apply Forall_cons in Hids as [Hkr Hm]. simpl in Hkr.
    change (omap (deref st) ((k, r) :: m).*2)
      with (match deref st r with
            | Some y => y :: omap (deref st) m.*2
            | None => omap (deref st) m.*2
            end).
    destruct (deref st r) as [d|]; [|done]. simpl in *.
    injection Hkr as ->. f_equal. by apply IH. }
  assert (NoDup (map id (values st))) as Hnd by (by rewrite Hmap).
  assert (∀ l, l ≡ₚ values st → NoDup (map id l)) as Hperm.
  { intros l Hl. by rewrite Hl. }
  assert (∀ l, l `sublist_of` values st → NoDup (map id l)) as Hsub.
  { intros l Hl. eapply sublist_NoDup; [exact Hnd|]. by apply fmap_sublist. }
  split; [done|]. split; [done|]. split; [|split; [|split]].
  - intros c. unfold recentlyUpdatedInCollection.
    rewrite orderBy_desc_Permutation. apply Hsub, sublist_filter.
  - apply Hperm, orderBy_desc_Permutation.
  - rewrite drafts_sorted_filter, orderBy_desc_Permutation. apply Hsub, sublist_filter.
  - intros k r d Hk Hd. apply Map_get_Some in Hk.
    rewrite Forall_forall in Hids. specialize (Hids _ Hk). simpl in Hids.
    rewrite Hd in Hids. by injection Hids.
Qed.

Lemma values_have_distinct_ids_witness :
  NoDup (map id (values scenario_store))
  ∧ map id (values scenario_store) = ["A"; "B"; "C"].
Proof.
  destruct (values_have_distinct_ids scenario_store) as (Hnd & Hmap & _);
    [compute_done|].
  split; [exact Hnd|exact Hmap].
Defined.

(** ** Prefetch, again *)

(** X18. A prefetch settles once the document is keyed under the id asked
    for: after [prefetchDocument(id)] had to ask and got the document with
    that id, [prefetchDocument(id)] returns [undefined], sends nothing and
    leaves the store as it is. *)
Theorem prefetchDocument_settles (item : Document) (answer' : response Document)
    (st : Store) :
  get (id item) st = None → getByUrl (id item) st = None →
  let st1 := (prefetchDocument (id item) (found_document item) st).1 in
  (∃ r, (prefetchDocument (id item) (found_document item) st).2 = Some (Returned (Some r))
        ∧ get (id item) st1 = Some r)
  ∧ requests st1 = requests st ++ [POST_info (id item) None]
  ∧ prefetchDocument (id item) answer' st1 = (st1, None)
  ∧ prefetchDocument_start (id item) st1 = (st1, None).
Proof.
  intros Hget Hurl st1.
  assert (∃ r, prefetchDocument (id item) (found_document item) st
               = (set_isFetching false
                    (set_isLoaded true (add item (send (POST_info (id item) None) st)).1),
                  Some (Returned (Some r)))
               ∧ get (id item) (add item (send (POST_info (id item) None) st)).1 = Some r)
    as (r & Hcall & Hr).
  { exists (add item (send (POST_info (id item) None) st)).2.
    split; [|apply get_add_same].
    unfold prefetchDocument, fetch, found_document. rewrite Hget. simpl.
    rewrite fetch_start_lookup, Hget, Hurl. simpl. unfold fetch_resume. simpl.
    do 3 f_equal. apply (get_add_same item (send (POST_info (id item) None) st)). }
  subst st1. rewrite Hcall. simpl.
  split; [by exists r|]. split.
  { by destruct (add_frame item (send (POST_info (id item) None) st))
      as (_ & _ & _ & _ & ->). }
  unfold prefetchDocument, prefetchDocument_start.
  change (get (id item) (set_isFetching false (set_isLoaded true ?s)))
    with (get (id item) s).
  by rewrite Hr.
Qed.

Lemma prefetchDocument_settles_witness :
  let item := mkDocument "D" "Y" 3 None in
  let st1 := (prefetchDocument "D" (found_document item) scenario_store).1 in
  prefetchDocument "D" (Rejected "offline") st1 = (st1, None).
Proof.
  intros item st1.
  destruct (prefetchDocument_settles item (Rejected "offline") scenario_store)
    as (_ & _ & Hsettled & _); [reflexivity..|].
  exact Hsettled.
Defined.

(** ** Move and delete *)

(** X19. [move] asks first and touches nothing until the answer has its
    data: a rejection or a response without [data] raises with the documents
    store and the collections as they were.  With data, the collection of the
    moved document is refreshed once when the collection store knows it, and
    not otherwise; the returned entity is in the table and the call returns
    its instance, which is the instance the table already had under that id,
    if any.  [move] never changes [isFetching] or [isLoaded]. *)
Theorem move_outcomes (document : Document) (parentDocumentId : option string)
    (answer : response Document) (root : Root) :
  let root' := (move document parentDocumentId answer root).1 in
  let out := (move document parentDocumentId answer root).2 in
  moves root' = moves root
                ++ [{| move_id := id document; move_parentDocument := parentDocumentId |}]
  ∧ isFetching (documents root') = isFetching (documents root)
  ∧ isLoaded (documents root') = isLoaded (documents root)
  ∧ ((∀ item, answer ≠ found_document item) →
     (∃ e, out = Raised e)
     ∧ documents root' = documents root ∧ refreshed root' = refreshed root)
  ∧ (∀ item, answer = found_document item →
     ∃ r, out = Returned r
          ∧ get (id item) (documents root') = Some r
          ∧ (∀ r0, get (id item) (documents root) = Some r0 → r = r0)
          ∧ (well_formed (documents root) → deref (documents root') r = Some item)
          ∧ refreshed root' =
              refreshed root
              ++ (if bool_decide (collectionId document ∈ collections root)
                  then [collectionId document] else [])).
Proof.
  unfold move, move_resume, found_document.
  destruct answer as [reason|[[[item|]]|]]; simpl.
  1,3,4: repeat split; try done; try (by eexists); by intros ? [= ->].
  set (root0 := move_start document parentDocumentId root).
  assert (documents (refresh_collection_of document root0) = documents root) as Hdocs.
  { unfold refresh_collection_of. by destruct (getCollectionForDocument document root0). }
  assert (moves (refresh_collection_of document root0) = moves root0) as Hmoves.
  { unfold refresh_collection_of. by destruct (getCollectionForDocument document root0). }
  assert (refreshed (refresh_collection_of document root0) =
            refreshed root
            ++ (if bool_decide (collectionId document ∈ collections root)
                then [collectionId document] else [])) as Hrefreshed.
  { unfold refresh_collection_of, getCollectionForDocument. simpl.
    case_bool_decide; simpl; [done|by rewrite app_nil_r]. }
  destruct (add item (documents (refresh_collection_of document root0))) as [st r] eqn:Hadd.
  rewrite Hdocs in Hadd. simpl.
  assert (st = (add item (documents root)).1) as -> by (by rewrite Hadd).
  assert (r = (add item (documents root)).2) as -> by (by rewrite Hadd).
  destruct (add_frame item (documents root)) as (Hf & Hl & _).
  split; [by rewrite Hmoves|]. split; [done|]. split; [done|].
  split; [by intros Hno; destruct (Hno item)|].
  intros ? [= <-]. eexists. split; [done|].
  split; [apply get_add_same|]. split; [|split; [apply deref_add_same|done]].
  intros r0 Hr0. unfold add. by rewrite Hr0.
Qed.

Lemma move_outcomes_witness :
  let root := {| documents := scenario_store; collections := ["X"]; refreshed := [];
                 moves := [] |} in
  let moved := mkDocument "B" "X" 6 (Some 5) in
  (move docB (Some "A") (found_document moved) root).2 = Returned 1%nat
  ∧ refreshed (move docB (Some "A") (found_document moved) root).1 = ["X"]
  ∧ documents (move docB (Some "A") (Resolved None) root).1 = scenario_store.
Proof.
  intros root moved.
  destruct (move_outcomes docB (Some "A") (found_document moved) root)
    as (_ & _ & _ & _ & Hdone).
  destruct (Hdone moved eq_refl) as (r & Hout & _ & Hsame & _ & Hrefreshed).
  rewrite (Hsame 1%nat eq_refl) in Hout.
  split; [exact Hout|]. split; [exact Hrefreshed|].
  destruct (move_outcomes docB (Some "A") (Resolved None) root)
    as (_ & _ & _ & Hfailed & _).
  by destruct Hfailed as (_ & Hdocs & _).
Defined.

Lemma elem_of_without x value array :
  x ∈ without array value ↔ x ∈ array ∧ x ≠ value.
Proof. unfold without. rewrite list_elem_of_filter. tauto. Qed.

(** X20. [delete], whatever the base store's [delete] does.  When the base
    call raises, [delete] raises the same error, refreshes nothing and leaves
    the recently-viewed ids as the base call left them.  When it returns, the
    document's id is no longer in the list, every other id is, in its old
    order, and the document's collection is refreshed once if the collection
    store knows it; in a consistent table, [recentlyViewed] then shows no
    document with the deleted id, even if the base call left it in the
    table. *)
Theorem delete_forgets_view (super_delete : Document → Store → Store * outcome ())
    (document : Document) (root : Root) :
  let left := (super_delete document (documents root)).1 in
  let root' := (delete super_delete document root).1 in
  (∀ e, (super_delete document (documents root)).2 = Raised e →
     (delete super_delete document root).2 = Raised e
     ∧ documents root' = left ∧ refreshed root' = refreshed root)
  ∧ (∀ u, (super_delete document (documents root)).2 = Returned u →
     (delete super_delete document root).2 = Returned ()
     ∧ recentlyViewedIds (documents root') = without (recentlyViewedIds left) (id document)
     ∧ (id document ∉ recentlyViewedIds (documents root'))
     ∧ (∀ x, x ≠ id document →
          (x ∈ recentlyViewedIds (documents root') ↔ x ∈ recentlyViewedIds left))
     ∧ recentlyViewedIds (documents root') `sublist_of` recentlyViewedIds left
     ∧ data (documents root') = data left ∧ objects (documents root') = objects left
     ∧ searchCache (documents root') = searchCache left
     ∧ refreshed root' =
         refreshed root
         ++ (if bool_decide (collectionId document ∈ collections root)
             then [collectionId document] else [])
     ∧ (consistent left →
        ∀ d, d ∈ recentlyViewed (documents root') → id d ≠ id document)).
Proof.
  intros left root'. subst left root'. unfold delete.
  destruct (super_delete document (documents root)) as [st [u|e]]; simpl.
  - split; [done|]. intros _ _.
    set (st1 := set_recentlyViewedIds _ st).
    assert (documents (refresh_collection_of document (set_documents st1 root)) = st1)
      as ->.
    { unfold refresh_collection_of. by destruct (getCollectionForDocument _ _). }
    split; [done|]. split; [done|]. split.
    { simpl. by intros [_ ?]%elem_of_without. }
    split.
    { intros x Hx. simpl. rewrite elem_of_without. tauto. }
    split; [apply sublist_filter|]. split; [done|]. split; [done|]. split; [done|].
    split.
    { unfold refresh_collection_of, getCollectionForDocument. simpl.
      case_bool_decide; simpl; [done|by rewrite app_nil_r]. }
    intros (_ & _ & Hids) d (ident & r & Hin & Hr & Hd)%elem_of_recentlyViewed Heq.
    simpl in Hin. apply elem_of_without in Hin as [_ Hne].
    apply Hne. rewrite <- Heq.
    apply Map_get_Some in Hr. rewrite Forall_forall in Hids.
    specialize (Hids _ Hr). simpl in Hids.
    change (deref st1 r) with (deref st r) in Hd. unfold deref in *.
    rewrite Hd in Hids. by injection Hids.
  - split; [|done]. by intros ? [= <-].
Qed.

(** A base [delete] that takes nothing out of the table. *)
Lemma delete_forgets_view_witness :
  let viewed :=
    (fetchRecentlyViewed None (found_page [docA; docB]) scenario_store).1 in
  let root := {| documents := viewed; collections := ["X"]; refreshed := [];
                 moves := [] |} in
  let root' := (delete (λ _ st, (st, Returned ())) docA root).1 in
  recentlyViewedIds viewed = ["A"; "B"]
  ∧ recentlyViewedIds (documents root') = ["B"]
  ∧ refreshed root' = ["X"].
Proof.
  intros viewed root root'.
  destruct (delete_forgets_view (λ _ st, (st, Returned ())) docA root) as [_ Hdone].
  destruct (Hdone () eq_refl) as (_ & Hids & _ & _ & _ & _ & _ & _ & Hrefreshed & _).
  split; [reflexivity|]. split; [exact Hids|exact Hrefreshed].
Defined.
